(** * Image-keyed substitution cipher: a shallow embedding of [app.py] and
    [image_to_binary.py], with the properties of the written specification
    checked against it.

    Python values are modelled as follows.
    - [int] is [Z]; [//] and [%] with a positive divisor are [Z.div] and
      [Z.modulo] (on naturals, [Nat.div]).
    - [str] is a list of code points ([pystr]); [bytes] is a list of octets.
    - [dict] is stdpp's [gmap], [set] is [gset].
    - an exception is the left injection of a sum ([result]).
    - libraries the program calls but does not contain are parameters:
      the interpreter's Unicode tables beyond ASCII ([unicode_db]) and the
      OpenCV entry points ([cv2_api]).  SHA-256 is written out, after
      FIPS 180-4, so that the keyed index can be evaluated. *)

From Stdlib Require Import ZArith QArith Qabs Qround Qfield Lqa List Sorted String Ascii Bool Lia DecimalString DecimalNat.
From stdpp Require Import base option list gmap sets.
Import ListNotations.

Local Open Scope Z_scope.

(* ===================================================================== *)
(** * Python strings *)
(* ===================================================================== *)

Module PyStr.

(** A [str] is a sequence of code points; every code point of a real
    [str] lies in [0, 0x10FFFF], surrogates included. *)
Abbreviation codepoint := Z (only parsing).
Abbreviation pystr := (list Z) (only parsing).
Abbreviation bytes := (list Z) (only parsing).

(** String literals of the source, written as Rocq strings. *)
Definition lit (s : string) : pystr :=
  map (fun a => Z.of_nat (nat_of_ascii a)) (list_ascii_of_string s).

(** [str(i)] for an [int]. *)
Definition str_of_int (i : Z) : pystr :=
  lit (NilZero.string_of_int (Z.to_int i)).

(** The interpreter's Unicode tables on the code points above ASCII:
    full upper-casing (a code point may map to several), [isspace] and
    [isalnum]. *)
Record unicode_db := {
  uc_upper : codepoint -> pystr;
  uc_isspace : codepoint -> bool;
  uc_isalnum : codepoint -> bool
}.

Definition is_ascii (c : codepoint) : bool := (0 <=? c) && (c <? 128).

Definition upper_cp (u : unicode_db) (c : codepoint) : pystr :=
  if is_ascii c then
    (if (97 <=? c) && (c <=? 122) then [c - 32] else [c])
  else uc_upper u c.

(** [s.upper()]: upper-casing has no context rule, it maps code point by
    code point. *)
Definition str_upper (u : unicode_db) (s : pystr) : pystr :=
  concat (map (upper_cp u) s).

Definition isspace_cp (u : unicode_db) (c : codepoint) : bool :=
  if is_ascii c then
    ((9 <=? c) && (c <=? 13)) || ((28 <=? c) && (c <=? 32))
  else uc_isspace u c.

Definition isalnum_cp (u : unicode_db) (c : codepoint) : bool :=
  if is_ascii c then
    ((48 <=? c) && (c <=? 57)) || ((65 <=? c) && (c <=? 90))
    || ((97 <=? c) && (c <=? 122))
  else uc_isalnum u c.

Fixpoint lstrip (u : unicode_db) (s : pystr) : pystr :=
  match s with
  | c :: s' => if isspace_cp u c then lstrip u s' else s
  | [] => []
  end.

(** [s.strip()] *)
Definition str_strip (u : unicode_db) (s : pystr) : pystr :=
  rev (lstrip u (rev (lstrip u s))).

Fixpoint starts_with (p s : pystr) : bool :=
  match p, s with
  | [], _ => true
  | a :: p', b :: s' => (a =? b) && starts_with p' s'
  | _ :: _, [] => false
  end.

(** [s.endswith(p)], the meaning of the glob pattern [*p]. *)
Definition ends_with (p s : pystr) : bool := starts_with (rev p) (rev s).

(** [s.find(sub)]: the lowest offset at which [sub] occurs in [s]. *)
Fixpoint str_find_from (sub s : pystr) (off : Z) : option Z :=
  if starts_with sub s then Some off
  else match s with
       | [] => None
       | _ :: s' => str_find_from sub s' (off + 1)
       end.

Definition str_find (sub s : pystr) : option Z := str_find_from sub s 0.

(** [sub in s] on strings is a substring test. *)
Definition str_in (sub s : pystr) : bool :=
  match str_find sub s with Some _ => true | None => false end.

(** [s[i]]: a negative index counts from the end; [None] is [IndexError]. *)
Definition str_get (s : pystr) (i : Z) : option codepoint :=
  let n := Z.of_nat (length s) in
  let j := if i <? 0 then i + n else i in
  if (0 <=? j) && (j <? n) then nth_error s (Z.to_nat j) else None.

(** Code-point order on strings, the order [sorted] uses. *)
Fixpoint str_leb (a b : pystr) : bool :=
  match a, b with
  | [], _ => true
  | _ :: _, [] => false
  | x :: a', y :: b' => (x <? y) || ((x =? y) && str_leb a' b')
  end.

Definition is_surrogate (c : codepoint) : bool :=
  (0xD800 <=? c) && (c <=? 0xDFFF).

(** UTF-8 of one code point; [None] where the strict codec raises
    [UnicodeEncodeError] (a surrogate) or the value is no code point. *)
Definition utf8_encode_cp (c : codepoint) : option bytes :=
  if c <? 0 then None
  else if c <? 0x80 then Some [c]
  else if c <? 0x800 then
    Some [Z.lor 0xC0 (Z.shiftr c 6); Z.lor 0x80 (Z.land c 0x3F)]
  else if is_surrogate c then None
  else if c <? 0x10000 then
    Some [Z.lor 0xE0 (Z.shiftr c 12);
          Z.lor 0x80 (Z.land (Z.shiftr c 6) 0x3F);
          Z.lor 0x80 (Z.land c 0x3F)]
  else if c <=? 0x10FFFF then
    Some [Z.lor 0xF0 (Z.shiftr c 18);
          Z.lor 0x80 (Z.land (Z.shiftr c 12) 0x3F);
          Z.lor 0x80 (Z.land (Z.shiftr c 6) 0x3F);
          Z.lor 0x80 (Z.land c 0x3F)]
  else None.

(** [s.encode("utf-8")] *)
Fixpoint utf8_encode (s : pystr) : option bytes :=
  match s with
  | [] => Some []
  | c :: s' =>
      match utf8_encode_cp c, utf8_encode s' with
      | Some b, Some bs => Some (b ++ bs)
      | _, _ => None
      end
  end.

(** The strings the strict UTF-8 codec accepts: code points that are
    not surrogates. *)
Definition encodable_cp (c : codepoint) : bool :=
  (0 <=? c) && (c <=? 0x10FFFF) && negb (is_surrogate c).

Definition encodable (s : pystr) : Prop := forallb encodable_cp s = true.

End PyStr.

(* ===================================================================== *)
(** * SHA-256 (FIPS 180-4), the function behind [hashlib.sha256] *)
(* ===================================================================== *)

Module Sha256.

Definition mask32 : Z := 0xFFFFFFFF.
Definition add32 (x y : Z) : Z := (x + y) mod 2 ^ 32.
Definition shr (n x : Z) : Z := Z.shiftr x n.
Definition rotr (n x : Z) : Z :=
  Z.lor (Z.shiftr x n) (Z.land (Z.shiftl x (32 - n)) mask32).

Definition Ch (x y z : Z) : Z :=
  Z.lxor (Z.land x y) (Z.land (Z.lxor x mask32) z).
Definition Maj (x y z : Z) : Z :=
  Z.lxor (Z.lxor (Z.land x y) (Z.land x z)) (Z.land y z).
Definition bsig0 (x : Z) : Z := Z.lxor (Z.lxor (rotr 2 x) (rotr 13 x)) (rotr 22 x).
Definition bsig1 (x : Z) : Z := Z.lxor (Z.lxor (rotr 6 x) (rotr 11 x)) (rotr 25 x).
Definition ssig0 (x : Z) : Z := Z.lxor (Z.lxor (rotr 7 x) (rotr 18 x)) (shr 3 x).
Definition ssig1 (x : Z) : Z := Z.lxor (Z.lxor (rotr 17 x) (rotr 19 x)) (shr 10 x).

(** The first 64 primes. *)
Definition primes : list Z :=
  [2; 3; 5; 7; 11; 13; 17; 19; 23; 29; 31; 37; 41; 43; 47; 53; 59; 61; 67; 71;
   73; 79; 83; 89; 97; 101; 103; 107; 109; 113; 127; 131; 137; 139; 149; 151;
   157; 163; 167; 173; 179; 181; 191; 193; 197; 199; 211; 223; 227; 229; 233;
   239; 241; 251; 257; 263; 269; 271; 277; 281; 283; 293; 307; 311].

(** The integer cube root, bit by bit from bit [n - 1] down. *)
Fixpoint cube_root_bits (n : nat) (x r : Z) : Z :=
  match n with
  | O => r
  | S n' =>
      let r' := r + 2 ^ Z.of_nat n' in
      cube_root_bits n' x (if r' * r' * r' <=? x then r' else r)
  end.

(** The round constants: the first 32 bits of the fractional parts of the
    cube roots of the first 64 primes. *)
Definition K : list Z :=
  Eval vm_compute in
    map (fun p => cube_root_bits 36 (p * 2 ^ 96) 0 mod 2 ^ 32) primes.

(** The initial hash value: the first 32 bits of the fractional parts of
    the square roots of the first 8 primes. *)
Definition H0 : list Z :=
  Eval vm_compute in
    map (fun p => Z.sqrt (p * 2 ^ 64) mod 2 ^ 32) (firstn 8 primes).

(** Big-endian value of a byte sequence ([int.from_bytes(b, "big")]). *)
Definition from_bytes_big (b : list Z) : Z :=
  fold_left (fun acc x => acc * 256 + x) b 0.

(** The [n] low-order bytes of [x], most significant first. *)
Fixpoint to_bytes_big (n : nat) (x : Z) : list Z :=
  match n with
  | O => []
  | S n' => to_bytes_big n' (x / 256) ++ [x mod 256]
  end.

(** Padding: a one bit, zeros up to 56 modulo 64, the bit length on 8 bytes. *)
Definition pad (msg : list Z) : list Z :=
  let len := Z.of_nat (length msg) in
  let zeros := Z.to_nat ((55 - len) mod 64) in
  msg ++ [0x80] ++ repeat 0 zeros ++ to_bytes_big 8 (8 * len).

(** Successive groups of [n] elements; the input length is a multiple of [n]. *)
Fixpoint chunks {A} (fuel n : nat) (l : list A) : list (list A) :=
  match fuel, l with
  | O, _ | _, [] => []
  | S fuel', _ => firstn n l :: chunks fuel' n (skipn n l)
  end.

Definition words_of_block (blk : list Z) : list Z :=
  map from_bytes_big (chunks 16 4 blk).

(** The message schedule, from a window on the last sixteen words. *)
Fixpoint schedule (n : nat) (win : list Z) : list Z :=
  match n with
  | O => []
  | S n' =>
      let nxt := add32 (add32 (ssig1 (nth 14 win 0)) (nth 9 win 0))
                       (add32 (ssig0 (nth 1 win 0)) (nth 0 win 0)) in
      nth 0 win 0 :: schedule n' (tl win ++ [nxt])
  end.

Record regs := Regs { ra : Z; rb : Z; rc : Z; rd : Z; re : Z; rf : Z; rg : Z; rh : Z }.

Definition round (s : regs) (kw : Z * Z) : regs :=
  let t1 := add32 (add32 (add32 (rh s) (bsig1 (re s))) (Ch (re s) (rf s) (rg s)))
                  (add32 (fst kw) (snd kw)) in
  let t2 := add32 (bsig0 (ra s)) (Maj (ra s) (rb s) (rc s)) in
  Regs (add32 t1 t2) (ra s) (rb s) (rc s) (add32 (rd s) t1) (re s) (rf s) (rg s).

Definition regs_of (h : list Z) : regs :=
  Regs (nth 0 h 0) (nth 1 h 0) (nth 2 h 0) (nth 3 h 0)
       (nth 4 h 0) (nth 5 h 0) (nth 6 h 0) (nth 7 h 0).

Definition list_of (s : regs) : list Z :=
  [ra s; rb s; rc s; rd s; re s; rf s; rg s; rh s].

Definition compress (h : list Z) (blk : list Z) : list Z :=
  let w := schedule 64 (words_of_block blk) in
  let s := fold_left round (combine K w) (regs_of h) in
  map (fun p => add32 (fst p) (snd p)) (combine h (list_of s)).

(** [hashlib.sha256(data).digest()]: 32 bytes. *)
Definition digest (data : list Z) : list Z :=
  let p := pad data in
  let h := fold_left compress (chunks (length p) 64 p) H0 in
  concat (map (to_bytes_big 4) h).

End Sha256.

Import PyStr.

(** Exceptions that the modelled code can raise. *)
Inductive exn :=
| RuntimeError
| UnicodeEncodeError
| ValueError
| KeyError
| IndexError.

Definition result (A : Type) : Type := exn + A.

(* ===================================================================== *)
(** * image_to_binary.py *)
(* ===================================================================== *)

Module ImageToBinary.

(** A single-channel raster: rows of pixels. *)
Definition raster := list (list Z).
(** What [cv2.imread] returns: rows of (B, G, R) pixels. *)
Definition colour_raster := list (list (Z * Z * Z)).

(** A [cv2.KeyPoint], reduced to the two attributes the code reads.
    Floating-point values are modelled by exact rationals. *)
Record keypoint := { kp_size : Q; kp_angle : Q }.

Definition descriptor := list Z.

(** The OpenCV entry points the module calls. *)
Record cv2_api := {
  imread : bytes -> option colour_raster;
  cvtColor_gray : colour_raster -> raster;
  sift_detectAndCompute : raster -> list keypoint * option (list descriptor)
}.

(** [l[a:b]] for non-negative bounds. *)
Definition slice {A} (a b : nat) (l : list A) : list A :=
  firstn (b - a) (skipn a l).

(** Block coordinates as the code stores them: [(x1, y1, x2, y2)]. *)
Definition coords := (nat * nat * nat * nat)%type.

(** [divide_image_into_blocks(image, block_size=(rows, cols))].  Both
    [rows] and [cols] are positive at every call site. *)
Definition divide_image_into_blocks {A} (image : list (list A)) (rows cols : nat)
  : list (list (list A)) * list coords :=
  let h := length image in
  let w := length (hd [] image) in
  let block_h := (h / rows)%nat in
  let block_w := (w / cols)%nat in
  let cells :=
    flat_map (fun i =>
      map (fun j =>
        let y1 := (i * block_h)%nat in
        let y2 := if (i <? rows - 1)%nat then ((i + 1) * block_h)%nat else h in
        let x1 := (j * block_w)%nat in
        let x2 := if (j <? cols - 1)%nat then ((j + 1) * block_w)%nat else w in
        (map (slice x1 x2) (slice y1 y2 image), (x1, y1, x2, y2)))
        (seq 0 cols))
      (seq 0 rows) in
  (map fst cells, map snd cells).

Definition Qltb (x y : Q) : bool :=
  match Qcompare x y with Lt => true | _ => false end.

(** [np.degrees]: multiplication by the double nearest to 180/pi. *)
Definition np_degrees (x : Q) : Q := x * (5729577951308232 # 100000000000000).

(** [x % 360] *)
Definition mod360 (x : Q) : Q := x - inject_Z (360 * Qfloor (x / inject_Z 360)).

Definition tolerance : Q := 1 # 1000000.

(** Lines 155-171 of [get_vector_quadrant]: from the angle in degrees to
    the code of the block. *)
Definition quadrant_of_degrees (angle_deg : Q) : pystr :=
  if Qltb (Qabs angle_deg) tolerance
     || Qltb (Qabs (angle_deg - inject_Z 90)) tolerance
     || Qltb (Qabs (angle_deg - inject_Z 180)) tolerance
     || Qltb (Qabs (angle_deg - inject_Z 270)) tolerance
     || Qltb (Qabs (angle_deg - inject_Z 360)) tolerance
  then lit "--"
  else if Qltb 0 angle_deg && Qltb angle_deg (inject_Z 90) then lit "00"
  else if Qltb (inject_Z 90) angle_deg && Qltb angle_deg (inject_Z 180) then lit "01"
  else if Qltb (inject_Z 180) angle_deg && Qltb angle_deg (inject_Z 270) then lit "10"
  else lit "11".

(** The arguments [get_vector_quadrant] receives from [image_to_binary]:
    [None] or a scalar.  (Its array branches are reached by no caller.) *)
Inductive vector_arg := VNone | VScalar (direction : Q).

Definition get_vector_quadrant (vector : vector_arg) : pystr :=
  match vector with
  | VNone => lit "00"
  | VScalar direction => quadrant_of_degrees (mod360 (np_degrees direction))
  end.

(** [np.mean] of a non-empty list. *)
Definition np_mean (l : list Q) : Q :=
  fold_right Qplus 0%Q l / inject_Z (Z.of_nat (length l)).

Section WithCv2.
Context (cv : cv2_api).

(** The body of the loop of [image_to_binary] over one block: the code of
    the block and the key points kept. *)
Definition block_code (threshold : Q) (block : raster) : pystr * list keypoint :=
  let '(keypoints, descriptors) := sift_detectAndCompute cv block in
  let filtered_kps :=
    match descriptors with
    | Some _ => filter (fun kp => negb (Qltb (kp_size kp) threshold)) keypoints
    | None => []
    end in
  let quadrant :=
    if (0 <? length filtered_kps)%nat then
      get_vector_quadrant (VScalar (np_mean (map kp_angle filtered_kps)))
    else lit "00" in
  (quadrant, filtered_kps).

(** [image_to_binary(image_path, threshold)], on the content of the file
    at [image_path]; [None] is the [(None, None, None)] of an unreadable
    image. *)
Definition image_to_binary_full (content : bytes) (threshold : Q)
  : option (pystr * list (list keypoint * coords) * list coords) :=
  match imread cv content with
  | None => None
  | Some img =>
      let gray := cvtColor_gray cv img in
      let '(blocks, block_coords) := divide_image_into_blocks gray 4 4 in
      let per_block := map (block_code threshold) blocks in
      let binary_bits := map fst per_block in
      let all_keypoints := combine (map snd per_block) block_coords in
      Some (concat binary_bits, all_keypoints, block_coords)
  end.

(** The first component, with the default threshold 6.0: what [app.py]
    uses. *)
Definition image_to_binary (content : bytes) : option pystr :=
  match image_to_binary_full content (inject_Z 6) with
  | Some (binary_string, _, _) => Some binary_string
  | None => None
  end.

(** The loop of [extract_sift_features] over [enumerate(keypoints)],
    from position [i]: a key point at least [threshold] in size is kept
    with [descriptors[i]] ([IndexError] when there is no such row). *)
Fixpoint filter_features (threshold : Q) (i : nat) (keypoints : list keypoint)
    (descriptors : list descriptor) : result (list keypoint * list descriptor) :=
  match keypoints with
  | [] => inr ([], [])
  | kp :: rest =>
      if negb (Qltb (kp_size kp) threshold) then
        match nth_error descriptors i with
        | None => inl IndexError
        | Some d =>
            match filter_features threshold (S i) rest descriptors with
            | inl e => inl e
            | inr (kps, ds) => inr (kp :: kps, d :: ds)
            end
        end
      else filter_features threshold (S i) rest descriptors
  end.

(** [extract_sift_features(image_path, threshold)], on the content of the
    file; the second component is [None] when no descriptor is kept. *)
Definition extract_sift_features (content : bytes) (threshold : Q)
  : result (list keypoint * option (list descriptor)) :=
  match imread cv content with
  | None => inr ([], None)
  | Some img =>
      let gray := cvtColor_gray cv img in
      let '(keypoints, descriptors) := sift_detectAndCompute cv gray in
      match descriptors with
      | None => inr ([], None)
      | Some ds =>
          match filter_features threshold 0 keypoints ds with
          | inl e => inl e
          | inr (filtered_keypoints, filtered_descriptors) =>
              inr (filtered_keypoints,
                   match filtered_descriptors with
                   | [] => None
                   | _ => Some filtered_descriptors
                   end)
          end
      end
  end.

End WithCv2.

End ImageToBinary.

(* ===================================================================== *)
(** * app.py *)
(* ===================================================================== *)

Module App.
Import ImageToBinary.

Definition ALPHABET : pystr := lit "ABCDEFGHIJKLMNOPQRSTUVWXYZ ,.".
Definition ALPHABET_SIZE : Z := Z.of_nat (length ALPHABET).

(** [range(n)] *)
Definition range (n : Z) : list Z := map Z.of_nat (seq 0 (Z.to_nat n)).

(** [s.index(sub)] *)
Definition str_index (s sub : pystr) : result Z :=
  match str_find sub s with
  | Some i => inr i
  | None => inl ValueError
  end.

(** [random.choice(seq)] for the draw [r]. *)
Definition random_choice {A} (r : nat) (l : list A) : result A :=
  match nth_error l (r mod length l)%nat with
  | Some x => inr x
  | None => inl IndexError
  end.

(** The directories the program reads and writes.  File names are text
    that the file-system encoding round-trips, so that writing
    [mapping.json] cannot fail.
    - [raw_img]: the files of [RawImg], [None] when the directory is absent;
    - [key_dirs]: the directories below [static/keys];
    - [mapping_files]: the parsed [mapping.json] of a key directory;
    - [key_images]: the file at [static/keys/<key_name>/<idx>/<name>]. *)
Record fs := Fs {
  raw_img : option (gmap pystr bytes);
  key_dirs : gset pystr;
  mapping_files : gmap pystr (gmap pystr (list pystr));
  key_images : gmap (pystr * pystr * pystr) bytes
}.

(** A reference to a served image, and the URL the handler formats. *)
Record image_url := Url { url_key_name : pystr; url_idx : pystr; url_file : pystr }.

Definition url_string (r : image_url) : pystr :=
  lit "/static/keys/" ++ url_key_name r ++ lit "/" ++ url_idx r ++ lit "/" ++ url_file r.

(** The error texts of the handlers. *)
Inductive error_text :=
| MissingKeyOrText
| MissingKey
| NoImages
| ExceptionText (e : exn).

(** A handler answers with a body, with [{"ok": false, "error": ...}] and
    a status, or lets an exception escape. *)
Inductive response (A : Type) :=
| Ok (body : A)
| Rejected (status : Z) (e : error_text)
| Uncaught (e : exn).
Arguments Ok {A} body.
Arguments Rejected {A} status e.
Arguments Uncaught {A} e.

Fixpoint insert_by_name (x : pystr * bytes) (l : list (pystr * bytes))
  : list (pystr * bytes) :=
  match l with
  | [] => [x]
  | y :: l' => if str_leb (fst x) (fst y) then x :: l else y :: insert_by_name x l'
  end.

(** [sorted(image_files, key=lambda x: x.name)] *)
Definition sorted_by_name (l : list (pystr * bytes)) : list (pystr * bytes) :=
  fold_right insert_by_name [] l.

(** [raw_path.glob("*" + ext)] on a case-sensitive file system. *)
Definition glob (dir : gmap pystr bytes) (ext : pystr) : list (pystr * bytes) :=
  List.filter (fun f => ends_with ext (fst f)) (map_to_list dir).

Definition empty_groups : gmap pystr (list pystr) :=
  list_to_map (map (fun i => (str_of_int i, [])) (range ALPHABET_SIZE)).

Definition empty_used : gmap pystr (gset pystr) :=
  list_to_map (map (fun i => (str_of_int i, ∅)) (range ALPHABET_SIZE)).

Section WithLibraries.
Context (u : unicode_db) (cv : cv2_api).

Definition char_to_index (ch : pystr) : result Z :=
  let ch := str_upper u ch in
  if str_in ch ALPHABET then str_index ALPHABET ch
  else str_index ALPHABET (lit " ").

Definition index_to_char (idx : Z) : result pystr :=
  match str_get ALPHABET (idx mod ALPHABET_SIZE) with
  | Some c => inr [c]
  | None => inl IndexError
  end.

Definition safe_key_name (key : pystr) : pystr :=
  let s := map (fun c => if isalnum_cp u c || str_in [c] (lit "-_.") then c else 95) key in
  match s with
  | [] => lit "default"
  | _ => s
  end.

Definition compute_char_index (binary_code : option pystr) (key : pystr) : result Z :=
  match utf8_encode (key ++ lit ":" ++ default [] binary_code) with
  | None => inl UnicodeEncodeError
  | Some data =>
      let digest := Sha256.digest data in
      let value := Sha256.from_bytes_big (firstn 4 digest) in
      inr (value mod ALPHABET_SIZE)
  end.

(** The loop of [initialize_key_mapping] over the sorted image files. *)
Fixpoint index_images (key key_name : pystr) (image_files : list (pystr * bytes))
    (groups : gmap pystr (list pystr)) (s : fs)
  : result (gmap pystr (list pystr)) * fs :=
  match image_files with
  | [] => (inr groups, s)
  | (name, content) :: rest =>
      match image_to_binary cv content with
      | None | Some [] => index_images key key_name rest groups s
      | Some binary_string =>
          match compute_char_index (Some binary_string) key with
          | inl e => (inl e, s)
          | inr idx =>
              let idx_str := str_of_int idx in
              let target := (key_name, idx_str, name) in
              let s' :=
                match key_images s !! target with
                | Some _ => s
                | None => Fs (raw_img s) (key_dirs s) (mapping_files s)
                             (<[target := content]> (key_images s))
                end in
              match groups !! idx_str with
              | None => (inl KeyError, s')
              | Some l =>
                  index_images key key_name rest (<[idx_str := l ++ [name]]> groups) s'
              end
          end
      end
  end.

Definition exts : list pystr := [lit ".jpg"; lit ".jpeg"; lit ".png"; lit ".bmp"].

Definition initialize_key_mapping (key : pystr) (s : fs)
  : result (gmap pystr (list pystr) * bool) * fs :=
  let key_name := safe_key_name key in
  match mapping_files s !! key_name with
  | Some m => (inr (m, false), s)
  | None =>
      let s1 := Fs (raw_img s) ({[key_name]} ∪ key_dirs s) (mapping_files s) (key_images s) in
      let groups := empty_groups in
      match raw_img s1 with
      | None => (inl RuntimeError, s1)
      | Some dir =>
          let image_files :=
            sorted_by_name
              (flat_map (fun ext => glob dir ext ++ glob dir (str_upper u ext)) exts) in
          match index_images key key_name image_files groups s1 with
          | (inl e, s2) => (inl e, s2)
          | (inr groups', s2) =>
              (inr (groups', true),
               Fs (raw_img s2) (key_dirs s2)
                  (<[key_name := groups']> (mapping_files s2)) (key_images s2))
          end
      end
  end.

(** The loop of [api_encrypt_text]; [rand pos] is the draw of the
    [random.choice] made at character position [pos]. *)
Fixpoint encrypt_loop (rand : nat -> nat) (pos : nat)
    (mapping : gmap pystr (list pystr)) (key_name : pystr) (text : pystr)
    (used_per_index : gmap pystr (gset pystr)) (urls : list image_url)
  : result (list image_url) :=
  match text with
  | [] => inr urls
  | ch :: rest =>
      match char_to_index [ch] with
      | inl e => inl e
      | inr idx =>
          let idx_str := str_of_int idx in
          let files := default [] (mapping !! idx_str) in
          match files with
          | [] => encrypt_loop rand (S pos) mapping key_name rest used_per_index urls
          | _ =>
              let candidates := files in
              match used_per_index !! idx_str with
              | None => inl KeyError
              | Some used =>
                  let unused := filter (fun f => f ∉ used) candidates in
                  let choice :=
                    match unused with
                    | _ :: _ => random_choice (rand pos) unused
                    | [] => random_choice (rand pos) candidates
                    end in
                  match choice with
                  | inl e => inl e
                  | inr file_name =>
                      encrypt_loop rand (S pos) mapping key_name rest
                        (<[idx_str := {[file_name]} ∪ used]> used_per_index)
                        (urls ++ [Url key_name idx_str file_name])
                  end
              end
          end
      end
  end.

Definition is_empty_str (s : pystr) : bool :=
  match s with [] => true | _ => false end.

(** [api_encrypt_text], on the fields [key] and [text] of the request. *)
Definition api_encrypt_text (rand : nat -> nat) (req_key req_text : option pystr) (s : fs)
  : response (list image_url * bool) * fs :=
  let key := str_strip u (default [] req_key) in
  let text := str_strip u (default [] req_text) in
  if is_empty_str key || is_empty_str text then (Rejected 400 MissingKeyOrText, s)
  else
    match initialize_key_mapping key s with
    | (inl e, s') => (Rejected 500 (ExceptionText e), s')
    | (inr (mapping, initialized_now), s') =>
        let key_name := safe_key_name key in
        match encrypt_loop rand 0 mapping key_name text empty_used [] with
        | inl e => (Uncaught e, s')
        | inr urls => (Ok (urls, initialized_now), s')
        end
    end.

(** The loop of [api_decrypt_images] over the uploaded files
    [(filename, content)]; the temporary copy of each upload is removed
    again before the handler returns. *)
Fixpoint decrypt_loop (key : pystr) (files : list (pystr * bytes)) (chars : list pystr)
  : result (list pystr) :=
  match files with
  | [] => inr chars
  | f :: rest =>
      match image_to_binary cv (snd f) with
      | None | Some [] => decrypt_loop key rest chars
      | Some binary_string =>
          match compute_char_index (Some binary_string) key with
          | inl e => inl e
          | inr idx =>
              match index_to_char idx with
              | inl e => inl e
              | inr ch => decrypt_loop key rest (chars ++ [ch])
              end
          end
      end
  end.

Definition api_decrypt_images (form_key : option pystr) (files : list (pystr * bytes))
  : response pystr :=
  let key := str_strip u (default [] form_key) in
  if is_empty_str key then Rejected 400 MissingKey
  else
    match files with
    | [] => Rejected 400 NoImages
    | _ =>
        match decrypt_loop key files [] with
        | inl e => Uncaught e
        | inr chars => Ok (concat chars)
        end
    end.


End WithLibraries.

(** ** The chat, the presence list and the key allocator *)

Definition KEY_CHARSET : pystr := lit "ABCDEFGHJKLMNPQRSTUVWXYZ23456789".
Definition MAX_HISTORY : nat := 200.

(** The default user name, the four characters U+533F U+540D U+7528
    U+6237. *)
Definition ANONYMOUS : pystr := [0x533F; 0x540D; 0x7528; 0x6237].

(** A [dict] whose iteration order is observed: the entries in insertion
    order, one per key. *)
Fixpoint dict_get {V} (d : list (pystr * V)) (k : pystr) : option V :=
  match d with
  | [] => None
  | (k', v) :: d' => if decide (k = k') then Some v else dict_get d' k
  end.

(** [d[k] = v]: an existing key keeps its place, a new one goes last. *)
Fixpoint dict_set {V} (d : list (pystr * V)) (k : pystr) (v : V) : list (pystr * V) :=
  match d with
  | [] => [(k, v)]
  | (k', v') :: d' =>
      if decide (k = k') then (k, v) :: d' else (k', v') :: dict_set d' k v
  end.

(** [d.pop(k, None)] *)
Fixpoint dict_pop {V} (d : list (pystr * V)) (k : pystr) : list (pystr * V) :=
  match d with
  | [] => []
  | (k', v') :: d' => if decide (k = k') then d' else (k', v') :: dict_pop d' k
  end.

(** The value of [online_users[user_id]]: "username" is set by every
    writer, "last_seen" and "key" may be absent. *)
Record user_info := UserInfo {
  info_username : pystr;
  info_last_seen : option Z;
  info_key : option pystr
}.

Record message := Message {
  msg_id : pystr;
  msg_userId : pystr;
  msg_username : pystr;
  msg_type : pystr;
  msg_content : pystr;
  msg_timestamp : pystr;
  msg_tsMs : Z
}.

(** The two module-level registries. *)
Record chat := Chat {
  messages : list message;
  online_users : list (pystr * user_info)
}.

Inductive chat_error := MissingUserId | BadPayload.

(** The answer of a chat handler: a body, [{"ok": false, ...}] with a
    status, or an escaping exception. *)
Inductive reply (A : Type) :=
| Done (body : A)
| Refused (status : Z) (e : chat_error)
| Crashed (e : exn).
Arguments Done {A} body.
Arguments Refused {A} status e.
Arguments Crashed {A} e.

(** Truth value of an optional string: [None] and [""] are false. *)
Definition truthy (s : option pystr) : bool :=
  match s with Some (_ :: _) => true | _ => false end.

(** [make_message]; the fresh identifier, the ISO time stamp and the
    clock reading are inputs. *)
Definition make_message (uuid iso : pystr) (now : Z)
    (user_id username msg_type content : pystr) : message :=
  Message uuid user_id username msg_type content iso now.

Definition prune_history (msgs : list message) : list message :=
  if (MAX_HISTORY <? length msgs)%nat
  then skipn (length msgs - MAX_HISTORY) msgs
  else msgs.

(** [get_online_users()], for the clock reading [now]: pairs
    [(userId, username)]. *)
Definition get_online_users (now : Z) (users : list (pystr * user_info))
  : list (pystr * pystr) :=
  let cutoff := now - 25000 in
  map (fun e => (fst e, info_username (snd e)))
      (List.filter (fun e => cutoff <=? default 0 (info_last_seen (snd e))) users).

(** [random.choice(KEY_CHARSET)], [n] times, with the draws
    [rand pos], [rand (pos + 1)], ... *)
Fixpoint random_chars (rand : nat -> nat) (pos n : nat) : result pystr :=
  match n with
  | O => inr []
  | S n' =>
      match random_choice (rand pos) KEY_CHARSET with
      | inl e => inl e
      | inr c =>
          match random_chars rand (S pos) n' with
          | inl e => inl e
          | inr s => inr (c :: s)
          end
      end
  end.

Definition generate_random_key (rand : nat -> nat) (length : nat) : result pystr :=
  random_chars rand 0 length.

Section WithText.
Context (u : unicode_db) (py_int : pystr -> option Z).

(** [(data.get("username") or ANONYMOUS).strip() or ANONYMOUS] *)
Definition clean_username (username : option pystr) : pystr :=
  let s := str_strip u (if truthy username then default [] username else ANONYMOUS) in
  if is_empty_str s then ANONYMOUS else s.

Definition heartbeat (user_id username : option pystr) (now_seen now_list : Z) (c : chat)
  : reply (list (pystr * pystr)) * chat :=
  let name := clean_username username in
  if negb (truthy user_id) then (Refused 400 MissingUserId, c)
  else
    let uid := default [] user_id in
    let users := dict_set (online_users c) uid (UserInfo name (Some now_seen) None) in
    (Done (get_online_users now_list users), Chat (messages c) users).

(** The common body of [api_send_message] and [api_send_image]. *)
Definition send (msg_type : pystr) (user_id username content : option pystr)
    (uuid iso : pystr) (now : Z) (c : chat) : reply message * chat :=
  let name := clean_username username in
  let content := str_strip u (default [] content) in
  if negb (truthy user_id) || is_empty_str content then (Refused 400 BadPayload, c)
  else
    let msg := make_message uuid iso now (default [] user_id) name msg_type content in
    (Done msg, Chat (prune_history (messages c ++ [msg])) (online_users c)).

Definition api_send_message := send (lit "text").
Definition api_send_image := send (lit "image").

(** [api_messages]: [since] is the query argument, "0" when absent and 0
    when [int] rejects it; the body is the new messages and the server
    time. *)
Definition api_messages (since_arg : option pystr) (now : Z) (c : chat)
  : reply (list message * Z) :=
  let since :=
    match py_int (default (lit "0") since_arg) with
    | Some n => n
    | None => 0
    end in
  Done (List.filter (fun m => since <? msg_tsMs m) (messages c), now).

(** The keys held by the users that count as active at [cutoff]: a user
    without "last_seen" counts. *)
Definition used_keys (cutoff : Z) (users : list (pystr * user_info)) : gset pystr :=
  list_to_set
    (omap (fun e =>
             if (cutoff <=? default cutoff (info_last_seen (snd e)))
                && truthy (info_key (snd e))
             then info_key (snd e) else None)
          users).

(** [api_assign_key]; the body is the key and the flag "existing". *)
Definition api_assign_key (rand : nat -> nat) (user_id username : option pystr)
    (now : Z) (s : fs) (c : chat) : reply (pystr * bool) * chat :=
  let name := clean_username username in
  if negb (truthy user_id) then (Refused 400 MissingUserId, c)
  else
    let uid := default [] user_id in
    let info :=
      match dict_get (online_users c) uid with
      | Some i => UserInfo name (info_last_seen i) (info_key i)
      | None => UserInfo name None None
      end in
    let users := dict_set (online_users c) uid info in
    if truthy (info_key info)
    then (Done (default [] (info_key info), true), Chat (messages c) users)
    else
      let existing_keys := elements (key_dirs s) in
      let cutoff := now - 15000 in
      let used := used_keys cutoff users in
      let candidates := filter (fun k => k ∉ used) existing_keys in
      let with_key k :=
        Chat (messages c)
             (dict_set users uid (UserInfo name (info_last_seen info) (Some k))) in
      match candidates with
      | _ :: _ =>
          match random_choice (rand 0%nat) candidates with
          | inl e => (Crashed e, Chat (messages c) users)
          | inr chosen => (Done (chosen, true), with_key chosen)
          end
      | [] =>
          match generate_random_key rand 8 with
          | inl e => (Crashed e, Chat (messages c) users)
          | inr new_key => (Done (new_key, false), with_key new_key)
          end
      end.

Definition api_logout (user_id : option pystr) (c : chat) : reply unit * chat :=
  if truthy user_id && bool_decide (is_Some (dict_get (online_users c) (default [] user_id)))
  then (Done tt, Chat (messages c) (dict_pop (online_users c) (default [] user_id)))
  else (Done tt, c).

End WithText.

End App.

(* ===================================================================== *)
(** * image_to_binary.py: the batch run *)
(* ===================================================================== *)

Module Batch.
Import ImageToBinary App.

(** The files [process_images] works on: the input directory ([None]
    when it does not exist), the names of the files in the directory of
    drawings, the files of the directory of renamed originals, and the
    rows of the CSV file below its header ([None] when there is no such
    file).  A missing output directory is the empty one: the function
    creates both.  The three directories are distinct. *)
Record workdir := Workdir {
  input_dir : option (gmap pystr bytes);
  output_dir : gset pystr;
  rename_dir : gmap pystr bytes;
  csv_file : option (list (pystr * pystr))
}.

(** [f"{idx:04d}.jpg"] *)
Definition output_name (idx : nat) : pystr :=
  let digits := lit (NilZero.string_of_uint (Nat.to_uint idx)) in
  repeat 48 (4 - length digits) ++ digits ++ lit ".jpg".

Section WithLibraries.
Context (u : unicode_db) (cv : cv2_api).

(** [visualize_features(image_path, keypoints_info, block_coords,
    output_path)]: whether a drawing is written at [output_path].
    ([cv2.imwrite] is taken to succeed; what is drawn is not modelled.) *)
Definition visualize_features (content : bytes) : bool :=
  match imread cv content with
  | None => false
  | Some _ => true
  end.

(** The loop of [process_images] over [enumerate(image_files)], from
    rank [idx]. *)
Fixpoint process_loop (threshold : Q) (idx : nat) (image_files : list (pystr * bytes))
    (w : workdir) (csv_data : list (pystr * pystr)) : workdir * list (pystr * pystr) :=
  match image_files with
  | [] => (w, csv_data)
  | (_, content) :: rest =>
      let name := output_name idx in
      let w1 := Workdir (input_dir w) (output_dir w)
                  (<[name := content]> (rename_dir w)) (csv_file w) in
      match image_to_binary_full cv content threshold with
      | None => process_loop threshold (S idx) rest w1 csv_data
      | Some (binary_string, _, _) =>
          let w2 :=
            if visualize_features content
            then Workdir (input_dir w1) ({[name]} ∪ output_dir w1) (rename_dir w1) (csv_file w1)
            else w1 in
          process_loop threshold (S idx) rest w2 (csv_data ++ [(name, binary_string)])
      end
  end.

Definition process_images (w : workdir) (threshold : Q) : workdir :=
  let w1 := Workdir (input_dir w) ∅ ∅ (csv_file w) in
  let image_files :=
    match input_dir w with
    | Some dir =>
        sorted_by_name
          (flat_map (fun ext => glob dir ext ++ glob dir (str_upper u ext)) exts)
    | None => []
    end in
  match image_files with
  | [] => w1
  | _ =>
      let '(w2, csv_data) := process_loop threshold 0 image_files w1 [] in
      match csv_data with
      | [] => w2
      | _ => Workdir (input_dir w2) (output_dir w2) (rename_dir w2) (Some csv_data)
      end
  end.

End WithLibraries.

End Batch.

(* ===================================================================== *)
(** * Instances of the library parameters, for evaluation *)
(* ===================================================================== *)

Module Samples.
Import ImageToBinary App.

(** CPython 3.11's tables above ASCII.  [isspace] is complete.  The
    upper-casing table lists every code point whose image contains an
    ASCII character; the other code points are left as they are, which
    the program cannot tell from their true image (no ASCII in either). *)
Definition cpython_upper (c : codepoint) : pystr :=
  if c =? 0xDF then lit "SS"
  else if c =? 0x131 then lit "I"
  else if c =? 0x149 then [0x2BC; 0x4E]
  else if c =? 0x17F then lit "S"
  else if c =? 0x1F0 then [0x4A; 0x30C]
  else if c =? 0x1E96 then [0x48; 0x331]
  else if c =? 0x1E97 then [0x54; 0x308]
  else if c =? 0x1E98 then [0x57; 0x30A]
  else if c =? 0x1E99 then [0x59; 0x30A]
  else if c =? 0x1E9A then [0x41; 0x2BE]
  else if c =? 0xFB00 then lit "FF"
  else if c =? 0xFB01 then lit "FI"
  else if c =? 0xFB02 then lit "FL"
  else if c =? 0xFB03 then lit "FFI"
  else if c =? 0xFB04 then lit "FFL"
  else if c =? 0xFB05 then lit "ST"
  else if c =? 0xFB06 then lit "ST"
  else [c].

Definition cpython_isspace (c : codepoint) : bool :=
  (c =? 0x85) || (c =? 0xA0) || (c =? 0x1680)
  || ((0x2000 <=? c) && (c <=? 0x200A))
  || (c =? 0x2028) || (c =? 0x2029) || (c =? 0x202F) || (c =? 0x205F)
  || (c =? 0x3000).

Definition cpython : unicode_db :=
  {| uc_upper := cpython_upper;
     uc_isspace := cpython_isspace;
     uc_isalnum := fun _ => false |}.

(** A toy image library.  A file is readable when it starts with the
    bytes "BM"; the next sixteen bytes are the blue channel of a 4x4
    picture.  The detector reports, for every non-zero pixel [p] of a
    block, a key point of size [p] and angle [p - 100]. *)
Definition toy_imread (content : bytes) : option colour_raster :=
  match content with
  | 66 :: 77 :: px =>
      let px := firstn 16 (px ++ repeat 0 16) in
      Some (map (map (fun p => (p, 0, 0))) (Sha256.chunks 4 4 px))
  | _ => None
  end.

Definition toy_sift (block : raster) : list keypoint * option (list descriptor) :=
  let kps :=
    map (fun p => {| kp_size := inject_Z p; kp_angle := inject_Z (p - 100) |})
        (List.filter (fun p => negb (p =? 0)) (concat block)) in
  (kps, match kps with [] => None | _ => Some (map (fun _ => []) kps) end).

Definition toy_cv : cv2_api :=
  {| imread := toy_imread;
     cvtColor_gray := map (map (fun p => fst (fst p)));
     sift_detectAndCompute := toy_sift |}.

Definition bm (px : list Z) : bytes := 66 :: 77 :: px.

(** A corpus directory with four readable images, an unreadable one
    and a file that is no image, and an otherwise empty store. *)
Definition sample_corpus : gmap pystr bytes :=
  list_to_map [(lit "d.jpg", bm [0; 0; 3]); (lit "a.jpg", bm []);
               (lit "b.PNG", bm [100]); (lit "s.jpeg", bm [101; 101; 102]);
               (lit "c.bmp", [1; 2]); (lit "notes.txt", bm [])].

Definition sample_fs : fs :=
  {| raw_img := Some sample_corpus; key_dirs := ∅;
     mapping_files := ∅; key_images := ∅ |}.



(** The directories of a second batch run: drawings and renamed files of
    an earlier run are still there, and no CSV file. *)
Definition sample_workdir : Batch.workdir :=
  {| Batch.input_dir := Some sample_corpus;
     Batch.output_dir := {[lit "9999.jpg"]};
     Batch.rename_dir := {[lit "9999.jpg" := bm [7]]};
     Batch.csv_file := None |}.

End Samples.

(* ===================================================================== *)
(** * Vocabulary of the properties *)
(* ===================================================================== *)

Module Spec.
Import ImageToBinary App.



(** The angle lies within the tolerance of one of the axes. *)
Definition on_axis (a : Q) : Prop :=
  exists k, In k [0; 90; 180; 270; 360]
    /\ (Qabs (a - inject_Z k) < tolerance)%Q.

Definition two_bit_codes : list pystr := [lit "00"; lit "01"; lit "10"; lit "11"].

(** The boundaries of the claim: [n // 4] per block, the last block
    running to [n]. *)
Definition block_start (n i : nat) : nat := (i * (n / 4))%nat.

Definition block_end (n i : nat) : nat :=
  if (i <? 3)%nat then ((i + 1) * (n / 4))%nat else n.

(** The pixel at row [y], column [x]. *)
Definition pixel {A} (image : list (list A)) (y x : nat) : option A :=
  match nth_error image y with
  | Some row => nth_error row x
  | None => None
  end.

(** Whether block [(i, j)] holds the pixel at [(y, x)]. *)
Definition in_block (h w i j y x : nat) : Prop :=
  (block_start h i <= y < block_end h i)%nat
  /\ (block_start w j <= x < block_end w j)%nat.

Definition grid : list (nat * nat) :=
  flat_map (fun i => map (fun j => (i, j)) (seq 0 4)) (seq 0 4).


(** File [f] was already selected for bucket [k] among [urls]. *)
Definition used_in (urls : list image_url) (k f : pystr) : Prop :=
  exists r, In r urls /\ url_idx r = k /\ url_file r = f.

(** Every selection is drawn from its bucket, and repeats a file of the
    bucket only once all of them have been selected before. *)
Definition no_early_repeat (mapping : gmap pystr (list pystr)) (urls : list image_url) : Prop :=
  forall pre r post, urls = pre ++ r :: post ->
    let bucket := default [] (mapping !! url_idx r) in
    In (url_file r) bucket
    /\ (used_in pre (url_idx r) (url_file r) ->
        forall g, In g bucket -> used_in pre (url_idx r) g).

(** The used-sets of the loop record exactly the selections made so far. *)
Definition used_sets_track (used_per_index : gmap pystr (gset pystr))
    (urls : list image_url) : Prop :=
  forall k used, used_per_index !! k = Some used ->
    forall f, f ∈ used <-> used_in urls k f.

(** Every file listed in a bucket of [m] is materialized below the key
    directory, and its fingerprint, recomputed, falls into that bucket
    under [key]. *)
Definition bucket_sound (cv : cv2_api) (key key_name : pystr)
    (m : gmap pystr (list pystr)) (images : gmap (pystr * pystr * pystr) bytes) : Prop :=
  forall k files f, m !! k = Some files -> In f files ->
    exists content c bs idx,
      images !! (key_name, k, f) = Some content
      /\ image_to_binary cv content = Some (c :: bs)
      /\ compute_char_index (Some (c :: bs)) key = inr idx
      /\ k = str_of_int idx.

(** A file already present below the key directory under the name of a
    corpus image has the fingerprint of that image. *)
Definition copies_agree (cv : cv2_api) (key_name : pystr) (dir : gmap pystr bytes)
    (images : gmap (pystr * pystr * pystr) bytes) : Prop :=
  forall k name content old,
    dir !! name = Some content -> images !! (key_name, k, name) = Some old ->
    image_to_binary cv old = image_to_binary cv content.

(** The store as the indexer leaves it for [key]: a persisted mapping is
    sound for this key; without one, the corpus is present and no stale
    copy disagrees with it. *)
Definition store_consistent (u : unicode_db) (cv : cv2_api) (key : pystr) (s : fs) : Prop :=
  match mapping_files s !! safe_key_name u key with
  | Some m => bucket_sound cv key (safe_key_name u key) m (key_images s)
  | None => exists dir, raw_img s = Some dir
                        /\ copies_agree cv (safe_key_name u key) dir (key_images s)
  end.




(** The eight glob patterns of the indexer, as suffixes. *)
Definition patterns (u : unicode_db) : list pystr :=
  flat_map (fun ext => [ext; str_upper u ext]) exts.

Definition has_image_ext (u : unicode_db) (name : pystr) : bool :=
  existsb (fun p => ends_with p name) (patterns u).

(** The file list of bucket [i]. *)
Definition bucket (groups : gmap pystr (list pystr)) (i : Z) : list pystr :=
  default [] (groups !! str_of_int i).

(** The file list the indexer goes through. *)
Definition image_files_of (u : unicode_db) (dir : gmap pystr bytes) : list (pystr * bytes) :=
  sorted_by_name (flat_map (fun ext => glob dir ext ++ glob dir (str_upper u ext)) exts).

(** The keyed index of a readable file. *)
Definition indexed_at (cv : cv2_api) (key : pystr) (content : bytes) (i : Z) : Prop :=
  exists c bs, image_to_binary cv content = Some (c :: bs)
               /\ compute_char_index (Some (c :: bs)) key = inr i.


(** A character a sanitized key name may hold. *)
Definition name_char (u : unicode_db) (c : codepoint) : Prop :=
  isalnum_cp u c = true \/ In c (lit "-_.").

(** What every handler keeps of the two registries: one record per user
    id, and a bounded history. *)
Definition chat_ok (c : chat) : Prop :=
  NoDup (map fst (online_users c)) /\ (length (messages c) <= MAX_HISTORY)%nat.






End Spec.

(* ===================================================================== *)
(** * Properties *)
(* ===================================================================== *)

Import ImageToBinary App Batch Samples Spec.

Ltac case_compare :=
  repeat match goal with
         | |- context [Z.ltb ?a ?b] => destruct (Z.ltb_spec a b)
         | |- context [Z.leb ?a ?b] => destruct (Z.leb_spec a b)
         | |- context [Z.eqb ?a ?b] => destruct (Z.eqb_spec a b)
         end.

(** ** SHA-256 test vectors (FIPS 180-4, appendix B) *)

Example sha256_abc :
  Sha256.from_bytes_big (Sha256.digest (lit "abc")) =
  0xba7816bf8f01cfea414140de5dae2223b00361a396177a9cb410ff61f20015ad.
Proof. vm_compute. reflexivity. Qed.

Example sha256_empty :
  Sha256.from_bytes_big (Sha256.digest []) =
  0xe3b0c44298fc1c149afbf4c8996fb92427ae41e4649b934ca495991b7852b855.
Proof. vm_compute. reflexivity. Qed.

Example sha256_two_blocks :
  Sha256.from_bytes_big
    (Sha256.digest (lit "abcdbcdecdefdefgefghfghighijhijkijkljklmklmnlmnomnopnopq")) =
  0x248d6a61d20638b8e5c026930c3e6039a33ce45964ff2167f6ecedd419db06c1.
Proof. vm_compute. reflexivity. Qed.

(** The keyed index agrees with CPython on three inputs (ASCII, and a key
    of two-, three- and four-byte code points). *)
Example compute_char_index_values :
  compute_char_index (Some (lit "00000000000000000000000000000000")) (lit "KEY") = inr 9
  /\ compute_char_index (Some (lit "00000000000000000000000000000000")) (lit "K2") = inr 23
  /\ compute_char_index None [0x20AC; 0x1F600; 0xE9] = inr 26.
Proof. vm_compute. repeat split. Qed.

(** ** Strings *)

Lemma utf8_encode_cp_some (c : codepoint) :
  encodable_cp c = true -> exists b, utf8_encode_cp c = Some b.
Proof.
  unfold encodable_cp, utf8_encode_cp, is_surrogate.
  case_compare; cbn; intros Henc; try discriminate Henc; try lia; eauto.
Qed.

Lemma utf8_encode_cp_none (c : codepoint) :
  encodable_cp c = false -> utf8_encode_cp c = None.
Proof.
  unfold encodable_cp, utf8_encode_cp, is_surrogate.
  case_compare; cbn; intros Henc; try discriminate Henc; try lia; reflexivity.
Qed.

Lemma utf8_encode_some (s : pystr) :
  encodable s -> exists data, utf8_encode s = Some data.
Proof.
  unfold encodable. induction s as [|c s IH]; cbn [forallb utf8_encode]; [eauto|].
  intros H. apply andb_prop in H as [Hc Hs].
  destruct (utf8_encode_cp_some c Hc) as [b ->].
  destruct (IH Hs) as [bs ->]. eauto.
Qed.

Lemma utf8_encode_none (s : pystr) :
  ~ encodable s -> utf8_encode s = None.
Proof.
  unfold encodable. induction s as [|c s IH]; cbn [forallb utf8_encode]; [congruence|].
  intros H. destruct (encodable_cp c) eqn:Hc.
  - cbn in H. rewrite (IH H). destruct (utf8_encode_cp c); reflexivity.
  - rewrite (utf8_encode_cp_none c Hc). reflexivity.
Qed.

Lemma encodable_app (a b : pystr) :
  encodable a -> encodable b -> encodable (a ++ b).
Proof.
  unfold encodable. rewrite forallb_app. intros -> ->. reflexivity.
Qed.

(** ** SHA-256: the shape of a digest *)

Lemma to_bytes_big_length (n : nat) (x : Z) : length (Sha256.to_bytes_big n x) = n.
Proof.
  revert x. induction n as [|n IH]; intros x; cbn; [reflexivity|].
  rewrite length_app, IH. cbn. lia.
Qed.

Lemma to_bytes_big_range (n : nat) (x : Z) :
  Forall (fun b => 0 <= b < 256) (Sha256.to_bytes_big n x).
Proof.
  revert x. induction n as [|n IH]; intros x; cbn; [constructor|].
  apply Forall_app. split; [apply IH|].
  constructor; [|constructor]. apply Z.mod_pos_bound. lia.
Qed.

Lemma compress_length (h blk : list Z) :
  length h = 8%nat -> length (Sha256.compress h blk) = 8%nat.
Proof.
  intros H. unfold Sha256.compress.
  rewrite length_map, length_combine, H. reflexivity.
Qed.

Lemma fold_compress_length (blocks : list (list Z)) (h : list Z) :
  length h = 8%nat -> length (fold_left Sha256.compress blocks h) = 8%nat.
Proof.
  revert h. induction blocks as [|b bl IH]; intros h H; cbn; [exact H|].
  apply IH. apply compress_length. exact H.
Qed.

Lemma concat_words_length (h : list Z) :
  length (concat (map (Sha256.to_bytes_big 4) h)) = (4 * length h)%nat.
Proof.
  induction h as [|x h IH]; [reflexivity|].
  cbn [map concat]. rewrite length_app, to_bytes_big_length, IH. cbn [length]. lia.
Qed.

Lemma concat_words_range (h : list Z) :
  Forall (fun b => 0 <= b < 256) (concat (map (Sha256.to_bytes_big 4) h)).
Proof.
  induction h as [|x h IH]; [constructor|].
  cbn [map concat]. apply Forall_app. split; [apply to_bytes_big_range|exact IH].
Qed.

Lemma digest_length (data : list Z) : length (Sha256.digest data) = 32%nat.
Proof.
  unfold Sha256.digest. rewrite concat_words_length, fold_compress_length; reflexivity.
Qed.

Lemma digest_range (data : list Z) :
  Forall (fun b => 0 <= b < 256) (Sha256.digest data).
Proof. unfold Sha256.digest. apply concat_words_range. Qed.

Lemma from_bytes_big_acc (b : list Z) (acc : Z) :
  Forall (fun x => 0 <= x < 256) b ->
  0 <= acc ->
  acc * 256 ^ Z.of_nat (length b)
    <= fold_left (fun a x => a * 256 + x) b acc
    < (acc + 1) * 256 ^ Z.of_nat (length b).
Proof.
  revert acc. induction b as [|x b IH]; intros acc Hb Hacc.
  - cbn. lia.
  - inversion Hb as [|? ? Hx Hb']; subst.
    cbn [fold_left length]. rewrite Nat2Z.inj_succ, Z.pow_succ_r by lia.
    specialize (IH (acc * 256 + x) Hb' ltac:(lia)).
    assert (0 < 256 ^ Z.of_nat (length b)) by (apply Z.pow_pos_nonneg; lia).
    nia.
Qed.

Lemma from_bytes_big_range (b : list Z) :
  Forall (fun x => 0 <= x < 256) b ->
  0 <= Sha256.from_bytes_big b < 256 ^ Z.of_nat (length b).
Proof.
  intros Hb. unfold Sha256.from_bytes_big.
  pose proof (from_bytes_big_acc b 0 Hb ltac:(lia)). lia.
Qed.

Lemma digest_prefix_value (data : list Z) :
  0 <= Sha256.from_bytes_big (firstn 4 (Sha256.digest data)) < 2 ^ 32.
Proof.
  pose proof (digest_length data) as Hl.
  assert (Hr : Forall (fun x => 0 <= x < 256) (firstn 4 (Sha256.digest data))).
  { apply Forall_take, digest_range. }
  pose proof (from_bytes_big_range _ Hr) as H.
  rewrite length_firstn, Hl in H. exact H.
Qed.

(** ** The keyed index *)

Lemma alphabet_size : ALPHABET_SIZE = 29.
Proof. reflexivity. Qed.

Lemma compute_char_index_encodable (binary_code : option pystr) (key : pystr) :
  encodable key ->
  encodable (default [] binary_code) ->
  exists data value,
    utf8_encode (key ++ lit ":" ++ default [] binary_code) = Some data
    /\ length (Sha256.digest data) = 32%nat
    /\ value = Sha256.from_bytes_big (firstn 4 (Sha256.digest data))
    /\ 0 <= value < 2 ^ 32
    /\ compute_char_index binary_code key = inr (value mod 29)
    /\ 0 <= value mod 29 <= 28.
Proof.
  intros Hk Hb.
  destruct (utf8_encode_some (key ++ lit ":" ++ default [] binary_code)) as [data Hd].
  { apply encodable_app; [exact Hk|]. apply encodable_app; [reflexivity|exact Hb]. }
  exists data, (Sha256.from_bytes_big (firstn 4 (Sha256.digest data))).
  split; [exact Hd|]. split; [apply digest_length|]. split; [reflexivity|].
  split; [apply digest_prefix_value|].
  unfold compute_char_index. rewrite Hd, alphabet_size.
  split; [reflexivity|].
  pose proof (Z.mod_pos_bound (Sha256.from_bytes_big (firstn 4 (Sha256.digest data))) 29).
  lia.
Qed.

(** C1 (as amended).  For every key and every fingerprint that the UTF-8
    codec accepts (no surrogate code point), [compute_char_index] returns:
    the bytes are the UTF-8 form of key, ":" and the fingerprint ([None]
    reads as the empty string); the digest is 32 bytes long; its first four
    bytes, read big-endian, are a 32-bit unsigned value; the result is that
    value modulo 29, in [0, 28].  The result is a function of the two
    arguments alone. *)
Theorem compute_char_index_spec (binary_code : option pystr) (key : pystr) :
  encodable key ->
  encodable (default [] binary_code) ->
  exists data value,
    utf8_encode (key ++ lit ":" ++ default [] binary_code) = Some data
    /\ length (Sha256.digest data) = 32%nat
    /\ value = Sha256.from_bytes_big (firstn 4 (Sha256.digest data))
    /\ 0 <= value < 2 ^ 32
    /\ compute_char_index binary_code key = inr (value mod 29)
    /\ 0 <= value mod 29 <= 28.
Proof. exact (compute_char_index_encodable binary_code key). Qed.

Lemma compute_char_index_spec_witness :
  exists data value,
    utf8_encode (lit "KEY" ++ lit ":" ++ lit "00000000000000000000000000000000") = Some data
    /\ length (Sha256.digest data) = 32%nat
    /\ value = Sha256.from_bytes_big (firstn 4 (Sha256.digest data))
    /\ 0 <= value < 2 ^ 32
    /\ compute_char_index (Some (lit "00000000000000000000000000000000")) (lit "KEY")
       = inr (value mod 29)
    /\ 0 <= value mod 29 <= 28.
Proof.
  apply (compute_char_index_spec (Some (lit "00000000000000000000000000000000")) (lit "KEY"));
    reflexivity.
Defined.

(** C1, the claim as written fails: a key holding a lone surrogate (JSON
    delivers one for the escape \ud800) cannot be encoded, and the function
    raises instead of returning an index. *)
Lemma compute_char_index_surrogate_key :
  compute_char_index (Some (lit "00000000000000000000000000000000")) [0xD800]
    = inl UnicodeEncodeError
  /\ ~ exists v : Z,
        compute_char_index (Some (lit "00000000000000000000000000000000")) [0xD800] = inr v.
Proof.
  split; [reflexivity|]. intros [v Hv]. discriminate Hv.
Qed.

Lemma compute_char_index_range (binary_code : option pystr) (key : pystr) (idx : Z) :
  compute_char_index binary_code key = inr idx -> 0 <= idx < 29.
Proof.
  unfold compute_char_index.
  destruct (utf8_encode _); [|discriminate].
  intros [= <-]. rewrite alphabet_size. apply Z.mod_pos_bound. lia.
Qed.

(** ** The alphabet *)

Lemma index_to_char_lookup (idx : Z) :
  exists c,
    index_to_char idx = inr [c]
    /\ nth_error ALPHABET (Z.to_nat (idx mod 29)) = Some c
    /\ 0 <= idx mod 29 < 29.
Proof.
  pose proof (Z.mod_pos_bound idx 29 ltac:(lia)) as Hm.
  destruct (nth_error ALPHABET (Z.to_nat (idx mod 29))) as [c|] eqn:Hn.
  - exists c. split; [|split; [reflexivity|exact Hm]].
    unfold index_to_char, str_get. rewrite alphabet_size.
    change (Z.of_nat (length ALPHABET)) with 29.
    destruct (Z.ltb_spec (idx mod 29) 0); [lia|].
    destruct (Z.leb_spec 0 (idx mod 29)); [|lia].
    destruct (Z.ltb_spec (idx mod 29) 29); [|lia].
    cbn [andb]. rewrite Hn. reflexivity.
  - exfalso. apply nth_error_None in Hn.
    change (length ALPHABET) with 29%nat in Hn. lia.
Qed.

(** C10.  [index_to_char] is total: for every integer, negative or beyond
    28 included, it returns the one-character string holding the alphabet
    symbol at position [idx mod 29]; the lookup never leaves the alphabet. *)
Theorem index_to_char_total (idx : Z) :
  exists c,
    index_to_char idx = inr [c]
    /\ nth_error ALPHABET (Z.to_nat (idx mod 29)) = Some c
    /\ 0 <= idx mod 29 < 29.
Proof. exact (index_to_char_lookup idx). Qed.

Lemma starts_with_nil_r (sub : pystr) : starts_with sub [] = true -> sub = [].
Proof. destruct sub; [reflexivity|discriminate]. Qed.

Lemma str_find_from_bounds (sub s : pystr) (off i : Z) :
  s <> [] -> str_find_from sub s off = Some i -> off <= i < off + Z.of_nat (length s).
Proof.
  revert off. induction s as [|c s IH]; intros off Hne; [congruence|].
  cbn [str_find_from]. destruct (starts_with sub (c :: s)) eqn:Hsw.
  - intros [= <-]. cbn [length]. lia.
  - destruct s as [|c' s'].
    + cbn [str_find_from]. destruct (starts_with sub []) eqn:Hnil; [|discriminate].
      apply starts_with_nil_r in Hnil. subst sub. discriminate Hsw.
    + intros H. apply IH in H; [|discriminate]. cbn [length] in *. lia.
Qed.


(** [char_to_index] never raises and stays within the alphabet. *)
Lemma char_to_index_total (u : unicode_db) (ch : pystr) :
  exists i, char_to_index u ch = inr i /\ 0 <= i <= 28.
Proof.
  unfold char_to_index, str_in, str_index.
  destruct (str_find (str_upper u ch) ALPHABET) as [i|] eqn:Hf.
  - exists i. split; [reflexivity|].
    apply str_find_from_bounds in Hf; [|discriminate].
    change (Z.of_nat (length ALPHABET)) with 29 in Hf. lia.
  - exists 26. split; [reflexivity|lia].
Qed.


(** What the claim C3 lists holds on ASCII: letters by position whatever
    their case, the three punctuation symbols, and the space for the
    rest. *)
Lemma char_to_index_examples (u : unicode_db) :
  char_to_index u (lit "A") = inr 0 /\ char_to_index u (lit "a") = inr 0
  /\ char_to_index u (lit "z") = inr 25
  /\ char_to_index u (lit " ") = inr 26 /\ char_to_index u (lit ",") = inr 27
  /\ char_to_index u (lit ".") = inr 28 /\ char_to_index u (lit "1") = inr 26.
Proof. repeat split. Qed.

(** C3: the code at the input where it departs from the claim.  Unicode
    upper-cases U+FB06 (the ligature "st") to the two letters "ST", which
    occur in the alphabet as a substring; [ch in ALPHABET] then holds and
    the index returned is that of "S", 18, whereas the claim (and the
    comment in the code) sends every character outside the alphabet to the
    index of the space, 26. *)
Theorem char_to_index_ligature_st (u : unicode_db) :
  uc_upper u 0xFB06 = lit "ST" ->
  ~ In 0xFB06 ALPHABET
  /\ char_to_index u [0xFB06] = inr 18
  /\ char_to_index u (lit " ") = inr 26.
Proof.
  intros Hup. split.
  - cbv. intuition discriminate.
  - unfold char_to_index, str_upper. cbn [map concat upper_cp is_ascii].
    change (upper_cp u 64262) with (uc_upper u 64262). rewrite Hup.
    split; reflexivity.
Qed.

Lemma char_to_index_ligature_st_witness :
  ~ In 0xFB06 ALPHABET
  /\ char_to_index cpython [0xFB06] = inr 18
  /\ char_to_index cpython (lit " ") = inr 26.
Proof. apply (char_to_index_ligature_st cpython). reflexivity. Defined.

(** ** The quadrant code of a block *)

Lemma Qltb_lt (x y : Q) : Qltb x y = true <-> (x < y)%Q.
Proof.
  unfold Qltb. rewrite Qlt_alt. destruct (x ?= y)%Q; split; congruence.
Qed.

Lemma Qltb_reflect (x y : Q) : reflect (x < y)%Q (Qltb x y).
Proof.
  destruct (Qltb x y) eqn:H; constructor.
  - apply Qltb_lt. exact H.
  - intros Hlt. apply Qltb_lt in Hlt. congruence.
Qed.




Lemma off_axis_bounds (a : Q) (k : Z) :
  In k [0; 90; 180; 270; 360] -> ~ on_axis a ->
  (a <= inject_Z k - tolerance \/ inject_Z k + tolerance <= a)%Q.
Proof.
  intros Hin Hoff.
  destruct (Qlt_le_dec (inject_Z k - tolerance) a) as [Hlo|Hlo]; [|left; exact Hlo].
  destruct (Qlt_le_dec a (inject_Z k + tolerance)) as [Hhi|Hhi]; [|right; exact Hhi].
  exfalso. apply Hoff. exists k. split; [exact Hin|].
  apply Qabs_Qlt_condition. split; lra.
Qed.

Lemma quadrant_in_codes (a : Q) :
  In (quadrant_of_degrees a) (lit "--" :: two_bit_codes).
Proof.
  unfold quadrant_of_degrees, two_bit_codes.
  repeat match goal with |- context [if ?b then _ else _] => destruct b end;
    cbn; tauto.
Qed.

Lemma get_vector_quadrant_in_codes (v : vector_arg) :
  In (get_vector_quadrant v) (lit "--" :: two_bit_codes).
Proof.
  destruct v; [cbn; tauto|]. apply quadrant_in_codes.
Qed.

Lemma block_code_in_codes (cv : cv2_api) (threshold : Q) (block : raster) :
  In (fst (block_code cv threshold block)) (lit "--" :: two_bit_codes).
Proof.
  unfold block_code. destruct (sift_detectAndCompute cv block) as [kps descs].
  cbn [fst]. destruct (_ <? _)%nat; [apply get_vector_quadrant_in_codes|cbn; tauto].
Qed.

Lemma divide_length {A} (image : list (list A)) :
  length (fst (divide_image_into_blocks image 4 4)) = 16%nat
  /\ length (snd (divide_image_into_blocks image 4 4)) = 16%nat.
Proof. split; reflexivity. Qed.

Lemma concat_codes (codes : list pystr) :
  Forall (fun c => In c (lit "--" :: two_bit_codes)) codes ->
  length (concat codes) = (2 * length codes)%nat
  /\ Forall (fun c => In c (lit "01-")) (concat codes).
Proof.
  induction 1 as [|c codes Hc _ [IHl IHf]]; [split; [reflexivity|constructor]|].
  cbn [concat]. rewrite length_app, IHl. split.
  - cbn in Hc. destruct Hc as [<-|[<-|[<-|[<-|[<-|[]]]]]]; cbn; lia.
  - apply Forall_app. split; [|exact IHf].
    cbn in Hc. destruct Hc as [<-|[<-|[<-|[<-|[<-|[]]]]]];
      (constructor; [|constructor; [|constructor]]); cbn; tauto.
Qed.

Lemma image_to_binary_shape (cv : cv2_api) (content : bytes) (s : pystr) :
  image_to_binary cv content = Some s ->
  length s = 32%nat /\ Forall (fun c => In c (lit "01-")) s.
Proof.
  unfold image_to_binary, image_to_binary_full.
  destruct (imread cv content) as [img|]; [|discriminate].
  pose proof (divide_length (cvtColor_gray cv img)) as [Hl _].
  destruct (divide_image_into_blocks (cvtColor_gray cv img) 4 4) as [blocks block_coords].
  cbn [fst] in Hl. intros [= <-].
  destruct (concat_codes (map fst (map (block_code cv (inject_Z 6)) blocks))) as [Hlen Hall].
  { apply List.Forall_forall. intros c Hc. apply in_map_iff in Hc as (p & <- & Hp).
    apply in_map_iff in Hp as (b & <- & _). apply block_code_in_codes. }
  split; [|exact Hall]. rewrite Hlen, !length_map. unfold raster in *. lia.
Qed.






(** ** The 4x4 partition *)

Lemma divide_unfold {A} (image : list (list A)) :
  let h := length image in
  let w := length (hd [] image) in
  divide_image_into_blocks image 4 4 =
    (map (fun ij => map (slice (block_start w (snd ij)) (block_end w (snd ij)))
                        (slice (block_start h (fst ij)) (block_end h (fst ij)) image)) grid,
     map (fun ij => (block_start w (snd ij), block_start h (fst ij),
                     block_end w (snd ij), block_end h (fst ij))) grid).
Proof. reflexivity. Qed.

Lemma grid_nth (i j : nat) :
  (i < 4)%nat -> (j < 4)%nat -> nth_error grid (4 * i + j) = Some (i, j).
Proof.
  intros Hi Hj.
  assert (Ei : (i = 0 \/ i = 1 \/ i = 2 \/ i = 3)%nat) by lia.
  assert (Ej : (j = 0 \/ j = 1 \/ j = 2 \/ j = 3)%nat) by lia.
  destruct Ei as [->|[->|[->| ->]]]; destruct Ej as [->|[->|[->| ->]]]; reflexivity.
Qed.

Lemma block_bounds (n i : nat) :
  (i < 4)%nat -> (block_start n i <= block_end n i <= n)%nat.
Proof.
  intros Hi. unfold block_start, block_end.
  destruct (Nat.ltb_spec i 3).
  - pose proof (Nat.Div0.mul_div_le n 4). nia.
  - assert (i = 3)%nat as -> by lia. pose proof (Nat.Div0.mul_div_le n 4). lia.
Qed.

Lemma slice_length {A} (a b : nat) (l : list A) :
  (a <= b <= length l)%nat -> length (slice a b l) = (b - a)%nat.
Proof.
  intros H. unfold slice. rewrite length_firstn, length_skipn. lia.
Qed.

Lemma slice_nth {A} (a b k : nat) (l : list A) :
  (k < b - a)%nat -> nth_error (slice a b l) k = nth_error l (a + k).
Proof.
  intros H. unfold slice. rewrite nth_error_firstn.
  destruct (Nat.ltb_spec k (b - a)); [|lia].
  apply nth_error_skipn.
Qed.

Lemma slice_In {A} (a b : nat) (l : list A) (x : A) :
  In x (slice a b l) -> In x l.
Proof.
  intros H. apply In_nth_error in H as [k Hk]. unfold slice in Hk.
  rewrite nth_error_firstn in Hk. destruct (k <? b - a)%nat; [|discriminate].
  rewrite nth_error_skipn in Hk. eapply nth_error_In. exact Hk.
Qed.

Lemma sub_raster_spec {A} (image : list (list A)) (w x1 x2 y1 y2 : nat) :
  Forall (fun row => length row = w) image ->
  (y1 <= y2 <= length image)%nat -> (x1 <= x2 <= w)%nat ->
  let block := map (slice x1 x2) (slice y1 y2 image) in
  length block = (y2 - y1)%nat
  /\ Forall (fun row => length row = (x2 - x1)%nat) block
  /\ forall y x, (y1 <= y < y2)%nat -> (x1 <= x < x2)%nat ->
       pixel block (y - y1) (x - x1) = pixel image y x.
Proof.
  intros Hrows Hy Hx block. subst block. split; [|split].
  - rewrite length_map. apply slice_length. exact Hy.
  - apply List.Forall_forall. intros row Hin.
    apply in_map_iff in Hin as (r & <- & Hr).
    apply slice_length. apply slice_In in Hr.
    rewrite List.Forall_forall in Hrows. rewrite (Hrows r Hr). exact Hx.
  - intros y x Hy' Hx'. unfold pixel.
    rewrite nth_error_map, slice_nth by lia.
    replace (y1 + (y - y1))%nat with y by lia.
    destruct (nth_error image y) as [row|]; cbn [option_map]; [|reflexivity].
    rewrite slice_nth by lia. f_equal. lia.
Qed.

Lemma cover_1d (n y : nat) :
  (y < n)%nat ->
  exists i, (i < 4)%nat /\ (block_start n i <= y < block_end n i)%nat
    /\ forall i', (i' < 4)%nat -> (block_start n i' <= y < block_end n i')%nat -> i' = i.
Proof.
  intros Hy. pose proof (Nat.Div0.mul_div_le n 4) as Hb.
  assert (Hcase : (y < n / 4 \/ n / 4 <= y < 2 * (n / 4)
                   \/ 2 * (n / 4) <= y < 3 * (n / 4) \/ 3 * (n / 4) <= y)%nat) by lia.
  assert (Hall : forall i', (i' < 4)%nat -> i' = 0%nat \/ i' = 1%nat \/ i' = 2%nat \/ i' = 3%nat)
    by (intros; lia).
  destruct Hcase as [H|[H|[H|H]]];
    [exists 0%nat | exists 1%nat | exists 2%nat | exists 3%nat];
    (split; [lia|]); (split; [unfold block_start, block_end; cbn [Nat.ltb Nat.leb]; lia|]);
    intros i' Hi'; destruct (Hall i' Hi') as [->|[->|[->| ->]]];
    unfold block_start, block_end; cbn [Nat.ltb Nat.leb]; lia.
Qed.

(** C5.  For a raster of height [h >= 1] and width [w >= 1] (every row
    [w] pixels long), [divide_image_into_blocks] returns 16 blocks and 16
    coordinate tuples.  Entry [4 * i + j] (row-major) is the block of grid
    row [i] and grid column [j]: its coordinates are
    [(j * (w // 4), i * (h // 4), x2, y2)] with [x2 = (j + 1) * (w // 4)],
    or [w] for the last column, and [y2 = (i + 1) * (h // 4)], or [h] for
    the last row; the block has exactly the pixels of that rectangle, each
    at its place.  Every pixel of the image lies in exactly one of the 16
    rectangles. *)
Theorem divide_image_into_blocks_partition {A} (image : list (list A)) (h w : nat) :
  length image = h ->
  Forall (fun row => length row = w) image ->
  (1 <= h)%nat -> (1 <= w)%nat ->
  let blocks := fst (divide_image_into_blocks image 4 4) in
  let block_coords := snd (divide_image_into_blocks image 4 4) in
  length blocks = 16%nat
  /\ length block_coords = 16%nat
  /\ (forall i j, (i < 4)%nat -> (j < 4)%nat ->
        nth_error block_coords (4 * i + j)
          = Some (block_start w j, block_start h i, block_end w j, block_end h i)
        /\ exists block,
             nth_error blocks (4 * i + j) = Some block
             /\ length block = (block_end h i - block_start h i)%nat
             /\ Forall (fun row => length row = (block_end w j - block_start w j)%nat) block
             /\ forall y x, in_block h w i j y x ->
                  pixel block (y - block_start h i) (x - block_start w j) = pixel image y x)
  /\ (forall y x, (y < h)%nat -> (x < w)%nat ->
        exists i j, (i < 4)%nat /\ (j < 4)%nat /\ in_block h w i j y x
          /\ forall i' j', (i' < 4)%nat -> (j' < 4)%nat -> in_block h w i' j' y x ->
               i' = i /\ j' = j).
Proof.
  intros Hh Hrows Hh1 Hw1 blocks block_coords.
  assert (Hw : length (hd [] image) = w).
  { destruct image as [|row image]; [cbn in Hh; lia|].
    inversion Hrows; subst. reflexivity. }
  subst blocks block_coords. rewrite divide_unfold, Hh, Hw. cbn [fst snd].
  split; [reflexivity|]. split; [reflexivity|]. split.
  - intros i j Hi Hj. rewrite !nth_error_map, (grid_nth i j Hi Hj). cbn [option_map fst snd].
    split; [reflexivity|]. eexists. split; [reflexivity|].
    pose proof (block_bounds h i Hi) as Hbi. pose proof (block_bounds w j Hj) as Hbj.
    destruct (sub_raster_spec image w (block_start w j) (block_end w j)
                (block_start h i) (block_end h i) Hrows ltac:(lia) ltac:(lia))
      as (Hlen & Hrl & Hpix).
    split; [exact Hlen|]. split; [exact Hrl|].
    intros y x [Hy Hx]. apply Hpix; assumption.
  - intros y x Hy Hx.
    destruct (cover_1d h y Hy) as (i & Hi & Hyi & Hui).
    destruct (cover_1d w x Hx) as (j & Hj & Hxj & Huj).
    exists i, j. split; [exact Hi|]. split; [exact Hj|]. split; [split; assumption|].
    intros i' j' Hi' Hj' [Hy' Hx']. split; [apply Hui|apply Huj]; assumption.
Qed.

Lemma divide_image_into_blocks_partition_witness :
  let image := [[1; 2; 3; 4; 5]; [6; 7; 8; 9; 10]; [11; 12; 13; 14; 15];
                [16; 17; 18; 19; 20]; [21; 22; 23; 24; 25]; [26; 27; 28; 29; 30]] in
  let blocks := fst (divide_image_into_blocks image 4 4) in
  let block_coords := snd (divide_image_into_blocks image 4 4) in
  length blocks = 16%nat
  /\ nth_error block_coords 15 = Some (3, 3, 5, 6)%nat
  /\ nth_error blocks 15 = Some [[19; 20]; [24; 25]; [29; 30]].
Proof.
  intros image blocks block_coords.
  destruct (divide_image_into_blocks_partition image 6 5) as (Hl & _ & Hij & _).
  - reflexivity.
  - repeat constructor.
  - lia.
  - lia.
  - split; [exact Hl|].
    destruct (Hij 3%nat 3%nat ltac:(lia) ltac:(lia)) as (Hc & _).
    split; [exact Hc|reflexivity].
Defined.

(** ** The corpus indexer *)

Lemma in_range (n i : Z) : 0 <= i < n -> In i (range n).
Proof.
  intros H. unfold range. apply in_map_iff. exists (Z.to_nat i).
  split; [lia|]. apply in_seq. lia.
Qed.

Lemma empty_groups_lookup (i : Z) :
  0 <= i < 29 -> empty_groups !! str_of_int i = Some [].
Proof.
  intros H. apply (in_range 29) in H. cbn in H.
  repeat (destruct H as [<-|H]; [reflexivity|]). destruct H.
Qed.

Lemma empty_used_lookup (i : Z) :
  0 <= i < 29 -> empty_used !! str_of_int i = Some ∅.
Proof.
  intros H. apply (in_range 29) in H. cbn in H.
  repeat (destruct H as [<-|H]; [reflexivity|]). destruct H.
Qed.

Lemma image_to_binary_cases (cv : cv2_api) (content : bytes) :
  (imread cv content = None /\ image_to_binary cv content = None)
  \/ (exists img c s, imread cv content = Some img
        /\ image_to_binary cv content = Some (c :: s)
        /\ encodable (c :: s)).
Proof.
  destruct (image_to_binary cv content) as [s|] eqn:Hs.
  - right. pose proof (image_to_binary_shape cv content s Hs) as [Hl Hall].
    unfold image_to_binary, image_to_binary_full in Hs.
    destruct (imread cv content) as [img|]; [|discriminate].
    destruct s as [|c s]; [discriminate Hl|].
    exists img, c, s. split; [reflexivity|]. split; [reflexivity|].
    unfold encodable. apply forallb_forall. intros x Hx.
    rewrite List.Forall_forall in Hall. specialize (Hall x Hx). cbn in Hall.
    destruct Hall as [<-|[<-|[<-|[]]]]; reflexivity.
  - left. split; [|reflexivity].
    unfold image_to_binary, image_to_binary_full in Hs.
    destruct (imread cv content) as [img|]; [|reflexivity].
    destruct (divide_image_into_blocks (cvtColor_gray cv img) 4 4). discriminate.
Qed.


Lemma index_images_state (cv : cv2_api) (key key_name : pystr)
    (image_files : list (pystr * bytes)) (groups : gmap pystr (list pystr)) (s : fs)
    (r : result (gmap pystr (list pystr))) (s' : fs) :
  index_images cv key key_name image_files groups s = (r, s') ->
  raw_img s' = raw_img s /\ key_dirs s' = key_dirs s
  /\ mapping_files s' = mapping_files s /\ key_images s ⊆ key_images s'.
Proof.
  revert groups s. induction image_files as [|[name content] rest IH]; intros groups s.
  - cbn. intros [= <- <-]. done.
  - cbn [index_images].
    destruct (image_to_binary cv content) as [[|c bs]|]; [apply IH| |apply IH].
    destruct (compute_char_index (Some (c :: bs)) key) as [e|idx].
    { intros [= <- <-]. done. }
    set (target := (key_name, str_of_int idx, name)).
    destruct (key_images s !! target) as [old|] eqn:Hold.
    + destruct (groups !! str_of_int idx); [apply IH|]. intros [= <- <-]. done.
    + destruct (groups !! str_of_int idx).
      * intros H. apply IH in H as (H1 & H2 & H3 & H4). cbn in *.
        split; [exact H1|]. split; [exact H2|]. split; [exact H3|].
        etrans; [|exact H4]. by apply insert_subseteq.
      * intros [= <- <-]. cbn. split; [reflexivity|]. split; [reflexivity|].
        split; [reflexivity|]. by apply insert_subseteq.
Qed.

Lemma index_images_dom (cv : cv2_api) (key key_name : pystr)
    (image_files : list (pystr * bytes)) (groups groups' : gmap pystr (list pystr))
    (s s' : fs) :
  index_images cv key key_name image_files groups s = (inr groups', s') ->
  dom groups' = dom groups.
Proof.
  revert groups s. induction image_files as [|[name content] rest IH]; intros groups s.
  - cbn. intros [= <- <-]. reflexivity.
  - cbn [index_images].
    destruct (image_to_binary cv content) as [[|c bs]|]; [apply IH| |apply IH].
    destruct (compute_char_index (Some (c :: bs)) key) as [e|idx]; [discriminate|].
    destruct (groups !! str_of_int idx) as [l|] eqn:Hl; [|discriminate].
    intros H. apply IH in H. rewrite H, dom_insert_L.
    apply elem_of_dom_2 in Hl. apply set_eq. intros x.
    rewrite elem_of_union, elem_of_singleton.
    split; [intros [->|Hx]; assumption|intros Hx; right; exact Hx].
Qed.

(** With a key the codec accepts, the loop over the files cannot raise. *)
Lemma index_images_ok (cv : cv2_api) (key key_name : pystr)
    (image_files : list (pystr * bytes)) (groups : gmap pystr (list pystr)) (s : fs) :
  encodable key ->
  (forall i, 0 <= i < 29 -> is_Some (groups !! str_of_int i)) ->
  exists groups' s', index_images cv key key_name image_files groups s = (inr groups', s').
Proof.
  intros Hkey. revert groups s.
  induction image_files as [|[name content] rest IH]; intros groups s Hg.
  - cbn. eauto.
  - cbn [index_images].
    destruct (image_to_binary_cases cv content) as [[_ ->]|(img & c & bs & _ & -> & Henc)];
      [apply IH; exact Hg|].
    destruct (compute_char_index_encodable (Some (c :: bs)) key Hkey Henc)
      as (data & value & _ & _ & _ & _ & -> & Hr).
    destruct (Hg (value mod 29) ltac:(lia)) as [l ->].
    apply IH. intros i Hi.
    destruct (decide (str_of_int (value mod 29) = str_of_int i)) as [->|Hne].
    + rewrite lookup_insert_eq. eauto.
    + rewrite lookup_insert_ne by exact Hne. apply Hg. exact Hi.
Qed.


(** A fresh build over a present corpus succeeds and reports
    [initializedNow]. *)
Lemma initialize_key_mapping_fresh_ok (u : unicode_db) (cv : cv2_api) (key : pystr)
    (s : fs) (dir : gmap pystr bytes) :
  encodable key ->
  mapping_files s !! safe_key_name u key = None ->
  raw_img s = Some dir ->
  exists groups s', initialize_key_mapping u cv key s = (inr (groups, true), s').
Proof.
  intros Hkey Hnone Hraw. unfold initialize_key_mapping. rewrite Hnone. cbn [raw_img].
  rewrite Hraw.
  match goal with
  | |- context [index_images cv key ?kn ?files ?g ?s1] =>
      destruct (index_images_ok cv key kn files g s1 Hkey) as (g' & s2 & ->)
  end.
  - intros i Hi. rewrite empty_groups_lookup by exact Hi. eauto.
  - eauto.
Qed.

(** C6.  The mapping that a fresh build returns ([initializedNow] is
    true) has an entry for every bucket index 0..28, whatever the corpus
    holds; its keys are exactly the 29 keys the build starts from; and the
    mapping written to [mapping.json] under the sanitized key name is that
    same mapping. *)
Theorem fresh_mapping_covers_buckets (u : unicode_db) (cv : cv2_api) (key : pystr)
    (s s' : fs) (groups : gmap pystr (list pystr)) :
  initialize_key_mapping u cv key s = (inr (groups, true), s') ->
  (forall i, 0 <= i <= 28 -> exists files, groups !! str_of_int i = Some files)
  /\ dom groups = dom empty_groups
  /\ size groups = 29%nat
  /\ mapping_files s' !! safe_key_name u key = Some groups.
Proof.
  unfold initialize_key_mapping.
  destruct (mapping_files s !! safe_key_name u key) as [m|]; [discriminate|].
  cbn [raw_img]. destruct (raw_img s) as [dir|]; [|discriminate].
  match goal with
  | |- context [index_images cv key ?kn ?files ?g ?s1] =>
      destruct (index_images cv key kn files g s1) as [[e|g'] s2] eqn:Hloop
  end; [discriminate|].
  intros [= <- <-]. apply index_images_dom in Hloop.
  split; [|split; [exact Hloop|split]].
  - intros i Hi. apply elem_of_dom. rewrite Hloop. apply elem_of_dom.
    rewrite empty_groups_lookup by lia. eauto.
  - rewrite <- size_dom, Hloop, size_dom. reflexivity.
  - cbn. apply lookup_insert_eq.
Qed.

Lemma fresh_mapping_covers_buckets_witness :
  exists groups s',
    initialize_key_mapping cpython toy_cv (lit "KEY") sample_fs = (inr (groups, true), s')
    /\ (forall i, 0 <= i <= 28 -> exists files, groups !! str_of_int i = Some files)
    /\ dom groups = dom empty_groups
    /\ size groups = 29%nat
    /\ mapping_files s' !! safe_key_name cpython (lit "KEY") = Some groups.
Proof.
  destruct (initialize_key_mapping_fresh_ok cpython toy_cv (lit "KEY") sample_fs sample_corpus)
    as (groups & s' & H); [reflexivity|reflexivity|reflexivity|].
  exists groups, s'. split; [exact H|].
  exact (fresh_mapping_covers_buckets cpython toy_cv (lit "KEY") sample_fs s' groups H).
Defined.

(** The build over the sample corpus: "a.jpg" and "d.jpg" land in
    bucket 9, "b.PNG" in bucket 23, "s.jpeg" in bucket 26; the unreadable
    "c.bmp" and the text file are in no bucket. *)
Example sample_build :
  match fst (initialize_key_mapping cpython toy_cv (lit "KEY") sample_fs) with
  | inr (groups, built_now) =>
      (groups !! str_of_int 9, groups !! str_of_int 23, groups !! str_of_int 26,
       length (List.filter (fun kv => negb (is_empty_str (concat (snd kv))))
                 (map_to_list groups)),
       built_now)
  | inl _ => (None, None, None, 0%nat, false)
  end
  = (Some [lit "a.jpg"; lit "d.jpg"], Some [lit "b.PNG"], Some [lit "s.jpeg"], 3%nat, true).
Proof. vm_compute. reflexivity. Qed.

Lemma sample_buckets (m : gmap pystr (list pystr)) (b : bool) (s' : fs) :
  initialize_key_mapping cpython toy_cv (lit "KEY") sample_fs = (inr (m, b), s') ->
  m !! str_of_int 9 = Some [lit "a.jpg"; lit "d.jpg"]
  /\ m !! str_of_int 26 = Some [lit "s.jpeg"].
Proof.
  intros H. pose proof sample_build as Hb. rewrite H in Hb. cbn [fst] in Hb.
  injection Hb as H9 _ H26 _ _. split; assumption.
Qed.



(** ** Decoding *)






(** ** Selection of images within one call *)

Lemma random_choice_In {A} (r : nat) (l : list A) (x : A) :
  random_choice r l = inr x -> In x l.
Proof.
  unfold random_choice. destruct (nth_error l (r mod length l)) as [y|] eqn:H; [|discriminate].
  intros [= <-]. eapply nth_error_In. exact H.
Qed.

Lemma random_choice_ok {A} (r : nat) (l : list A) :
  l <> [] -> exists x, random_choice r l = inr x.
Proof.
  intros Hne. unfold random_choice.
  destruct (nth_error l (r mod length l)) as [y|] eqn:H; [eauto|].
  apply nth_error_None in H. destruct l; [congruence|].
  pose proof (Nat.mod_upper_bound r (length (a :: l))) as Hb. cbn [length] in *. lia.
Qed.

Lemma used_in_app (urls : list image_url) (r : image_url) (k f : pystr) :
  used_in (urls ++ [r]) k f <-> used_in urls k f \/ (url_idx r = k /\ url_file r = f).
Proof.
  unfold used_in. split.
  - intros (r' & Hin & Hk & Hf). apply in_app_iff in Hin as [Hin|[<-|[]]]; eauto.
  - intros [(r' & Hin & Hk & Hf)|[Hk Hf]].
    + exists r'. split; [apply in_app_iff; auto|auto].
    + exists r. split; [apply in_app_iff; cbn; auto|auto].
Qed.

Lemma app_snoc_cases {A} (l pre post : list A) (x r : A) :
  l ++ [x] = pre ++ r :: post ->
  (post = [] /\ pre = l /\ r = x) \/ (exists post', post = post' ++ [x] /\ l = pre ++ r :: post').
Proof.
  revert l. induction post as [|p post IH] using rev_ind; intros l H.
  - left. apply app_inj_tail in H as [-> ->]. auto.
  - right. rewrite app_comm_cons, app_assoc in H. apply app_inj_tail in H as [-> ->].
    exists post. auto.
Qed.

Lemma encrypt_loop_selection (u : unicode_db) (rand : nat -> nat)
    (mapping : gmap pystr (list pystr)) (key_name : pystr) (text : pystr) :
  forall (pos : nat) (used_per_index : gmap pystr (gset pystr)) (urls out : list image_url),
    used_sets_track used_per_index urls ->
    no_early_repeat mapping urls ->
    encrypt_loop u rand pos mapping key_name text used_per_index urls = inr out ->
    no_early_repeat mapping out.
Proof.
  induction text as [|ch rest IH]; intros pos used_per_index urls out Htrack Hrep.
  - cbn. intros [= <-]. exact Hrep.
  - cbn [encrypt_loop].
    destruct (char_to_index u [ch]) as [e|idx]; [discriminate|].
    destruct (default [] (mapping !! str_of_int idx)) as [|f0 files] eqn:Hfiles.
    { apply IH; assumption. }
    destruct (used_per_index !! str_of_int idx) as [used|] eqn:Hused; [|discriminate].
    set (candidates := f0 :: files) in *.
    set (unused := filter (fun f => f ∉ used) candidates).
    assert (Hchoice : forall file_name,
              match unused with
              | _ :: _ => random_choice (rand pos) unused
              | [] => random_choice (rand pos) candidates
              end = inr file_name ->
              In file_name candidates
              /\ (file_name ∈ used -> forall g, In g candidates -> g ∈ used)).
    { intros file_name. destruct unused as [|x unused'] eqn:Hun.
      - intros Hc. apply random_choice_In in Hc. split; [exact Hc|].
        intros _ g Hg. destruct (decide (g ∈ used)) as [|Hn]; [assumption|].
        exfalso. assert (Hin : g ∈ unused).
        { apply list_elem_of_filter. split; [exact Hn|apply list_elem_of_In; exact Hg]. }
        rewrite Hun in Hin. inversion Hin.
      - intros Hc. apply random_choice_In in Hc. rewrite <- Hun in Hc.
        apply list_elem_of_In, list_elem_of_filter in Hc as [Hn Hin].
        split; [apply list_elem_of_In; exact Hin|]. intros Hu. contradiction. }
    destruct (match unused with
              | _ :: _ => random_choice (rand pos) unused
              | [] => random_choice (rand pos) candidates
              end) as [e|file_name] eqn:Hc; [discriminate|].
    destruct (Hchoice file_name eq_refl) as [Hin Hall].
    apply IH.
    + intros k U HU f.
      rewrite used_in_app. cbn [url_idx url_file].
      destruct (decide (str_of_int idx = k)) as [<-|Hne].
      * rewrite lookup_insert_eq in HU. injection HU as <-.
        rewrite elem_of_union, elem_of_singleton, (Htrack _ _ Hused f).
        split; [intros [->|H]; auto|intros [H|[_ <-]]; auto].
      * rewrite lookup_insert_ne in HU by exact Hne.
        rewrite (Htrack _ _ HU f). split; [auto|intros [H|[Hk _]]; [exact H|contradiction]].
    + intros pre r post Heq.
      apply app_snoc_cases in Heq as [(-> & -> & ->)|(post' & -> & ->)].
      * cbn [url_idx url_file]. cbn zeta. rewrite Hfiles. split; [exact Hin|].
        intros Hu g Hg. apply (Htrack _ _ Hused). apply Hall; [|exact Hg].
        apply (Htrack _ _ Hused). exact Hu.
      * apply (Hrep pre r post'). reflexivity.
Qed.

Lemma used_sets_track_empty : used_sets_track empty_used [].
Proof.
  intros k U HU f. split.
  - intros Hf. exfalso.
    assert (HUe : U = ∅).
    { unfold empty_used in HU. apply elem_of_list_to_map_2 in HU.
      apply list_elem_of_In, in_map_iff in HU as (i & [= _ <-] & _). reflexivity. }
    subst U. apply not_elem_of_empty in Hf. exact Hf.
  - intros (r & [] & _).
Qed.

Lemma initialize_key_mapping_persisted (u : unicode_db) (cv : cv2_api) (key : pystr)
    (s s' : fs) (m : gmap pystr (list pystr)) (b : bool) :
  initialize_key_mapping u cv key s = (inr (m, b), s') ->
  mapping_files s' !! safe_key_name u key = Some m.
Proof.
  unfold initialize_key_mapping.
  destruct (mapping_files s !! safe_key_name u key) as [m0|] eqn:Hm.
  - intros [= <- <- <-]. exact Hm.
  - cbn [raw_img]. destruct (raw_img s) as [dir|]; [|discriminate].
    match goal with
    | |- context [index_images cv key ?kn ?files ?g ?s1] =>
        destruct (index_images cv key kn files g s1) as [[e|g'] s2]
    end; [discriminate|].
    intros [= <- <- <-]. cbn. apply lookup_insert_eq.
Qed.

(** C7.  In the answer of one [api_encrypt_text] call, every image is
    taken from the bucket of its character; an image already selected for
    that bucket earlier in the call is never selected while the bucket
    still holds a file not yet selected, so a file is repeated for a bucket
    only after every file of the bucket has been selected in the call.  The
    used-sets do not outlive the call: it leaves only the indexer's effects
    in the store, and the same request repeated on the resulting store with
    the same random draws selects the same images. *)
Theorem encrypt_avoids_repetition (u : unicode_db) (cv : cv2_api) (rand : nat -> nat)
    (req_key req_text : option pystr) (s s' : fs) (urls : list image_url) (built : bool) :
  api_encrypt_text u cv rand req_key req_text s = (Ok (urls, built), s') ->
  exists mapping,
    mapping_files s' !! safe_key_name u (str_strip u (default [] req_key)) = Some mapping
    /\ (forall pre r post, urls = pre ++ r :: post ->
          let bucket := default [] (mapping !! url_idx r) in
          In (url_file r) bucket
          /\ ((exists g, In g bucket /\ ~ used_in pre (url_idx r) g) ->
              ~ used_in pre (url_idx r) (url_file r))
          /\ (used_in pre (url_idx r) (url_file r) ->
              forall g, In g bucket -> used_in pre (url_idx r) g))
    /\ s' = snd (initialize_key_mapping u cv (str_strip u (default [] req_key)) s)
    /\ api_encrypt_text u cv rand req_key req_text s' = (Ok (urls, false), s').
Proof.
  unfold api_encrypt_text.
  set (key := str_strip u (default [] req_key)).
  set (text := str_strip u (default [] req_text)).
  destruct (is_empty_str key || is_empty_str text); [discriminate|].
  destruct (initialize_key_mapping u cv key s) as [[e|[mapping initialized_now]] s1] eqn:Hinit;
    [discriminate|].
  destruct (encrypt_loop u rand 0 mapping (safe_key_name u key) text empty_used [])
    as [e|out] eqn:Hloop; [discriminate|].
  intros [= <- <- <-].
  pose proof (initialize_key_mapping_persisted u cv key s s1 mapping _ Hinit) as Hpers.
  exists mapping. split; [exact Hpers|]. split; [|split].
  - assert (Hrep : no_early_repeat mapping out).
    { apply (encrypt_loop_selection u rand mapping (safe_key_name u key) text 0 empty_used [] out);
        [apply used_sets_track_empty| |exact Hloop].
      intros pre r post Heq. destruct pre; discriminate Heq. }
    intros pre r post Heq. destruct (Hrep pre r post Heq) as [Hin Hall].
    split; [exact Hin|]. split; [|exact Hall].
    intros (g & Hg & Hng) Hu. apply Hng. apply Hall; assumption.
  - reflexivity.
  - assert (Hagain : initialize_key_mapping u cv key s1 = (inr (mapping, false), s1)).
    { unfold initialize_key_mapping. rewrite Hpers. reflexivity. }
    rewrite Hagain, Hloop. reflexivity.
Qed.

(** ** Encoding, then decoding *)

Lemma bucket_keys_nodup : NoDup (map str_of_int (range 29)).
Proof. apply (bool_decide_unpack _). vm_compute. exact I. Qed.

Lemma str_of_int_inj (i j : Z) :
  0 <= i < 29 -> 0 <= j < 29 -> str_of_int i = str_of_int j -> i = j.
Proof.
  intros Hi Hj Heq.
  assert (Hl : forall k, 0 <= k < 29 ->
            map str_of_int (range 29) !! Z.to_nat k = Some (str_of_int k)).
  { intros k Hk. unfold range. rewrite !list_lookup_fmap.
    rewrite lookup_seq_lt by (cbn; lia). cbn. f_equal. f_equal. lia. }
  assert (Hn : Z.to_nat i = Z.to_nat j).
  { eapply NoDup_lookup;
      [exact bucket_keys_nodup|apply Hl; exact Hi|rewrite Heq; apply Hl; exact Hj]. }
  lia.
Qed.


Lemma insert_by_name_In (x y : pystr * bytes) (l : list (pystr * bytes)) :
  In y (insert_by_name x l) -> y = x \/ In y l.
Proof.
  induction l as [|z l IH]; cbn [insert_by_name].
  - intros [<-|[]]. auto.
  - destruct (str_leb (fst x) (fst z)).
    + intros [<-|H]; auto.
    + intros [<-|H]; [right; left; reflexivity|].
      destruct (IH H) as [->|H']; [auto|right; right; exact H'].
Qed.






(** The encoding loop cannot raise while the used-sets have an entry for
    each of the 29 indices. *)
Lemma encrypt_loop_ok (u : unicode_db) (rand : nat -> nat)
    (mapping : gmap pystr (list pystr)) (key_name : pystr) (text : pystr) :
  forall (pos : nat) (used_per_index : gmap pystr (gset pystr)) (urls : list image_url),
    (forall i, 0 <= i < 29 -> is_Some (used_per_index !! str_of_int i)) ->
    exists out, encrypt_loop u rand pos mapping key_name text used_per_index urls = inr out.
Proof.
  induction text as [|ch rest IH]; intros pos used_per_index urls Hused.
  - cbn. eauto.
  - cbn [encrypt_loop].
    destruct (char_to_index_total u [ch]) as (idx & -> & Hidx).
    destruct (default [] (mapping !! str_of_int idx)) as [|f0 files]; [apply IH; exact Hused|].
    destruct (Hused idx ltac:(lia)) as [used ->].
    set (candidates := f0 :: files).
    assert (Hc : exists file_name,
              match filter (fun f => f ∉ used) candidates with
              | _ :: _ => random_choice (rand pos) (filter (fun f => f ∉ used) candidates)
              | [] => random_choice (rand pos) candidates
              end = inr file_name).
    { destruct (filter (fun f => f ∉ used) candidates) as [|x l] eqn:Hf;
        apply random_choice_ok; discriminate. }
    destruct Hc as [file_name ->]. apply IH.
    intros i Hi. destruct (decide (str_of_int idx = str_of_int i)) as [->|Hne].
    + rewrite lookup_insert_eq. eauto.
    + rewrite lookup_insert_ne by exact Hne. apply Hused. exact Hi.
Qed.



(** Encoding on a consistent store succeeds. *)
Lemma api_encrypt_text_ok (u : unicode_db) (cv : cv2_api) (rand : nat -> nat)
    (req_key req_text : option pystr) (s : fs) :
  str_strip u (default [] req_key) <> [] ->
  str_strip u (default [] req_text) <> [] ->
  encodable (str_strip u (default [] req_key)) ->
  store_consistent u cv (str_strip u (default [] req_key)) s ->
  exists urls built s' mapping,
    api_encrypt_text u cv rand req_key req_text s = (Ok (urls, built), s')
    /\ initialize_key_mapping u cv (str_strip u (default [] req_key)) s
       = (inr (mapping, built), s')
    /\ encrypt_loop u rand 0 mapping (safe_key_name u (str_strip u (default [] req_key)))
         (str_strip u (default [] req_text)) empty_used [] = inr urls.
Proof.
  intros Hk Ht Henc Hcons. unfold api_encrypt_text.
  set (key := str_strip u (default [] req_key)) in *.
  set (text := str_strip u (default [] req_text)) in *.
  assert (Hke : is_empty_str key = false) by (destruct key; [congruence|reflexivity]).
  assert (Hte : is_empty_str text = false) by (destruct text; [congruence|reflexivity]).
  rewrite Hke, Hte. cbn [orb].
  assert (Hinit : exists m b s', initialize_key_mapping u cv key s = (inr (m, b), s')).
  { unfold store_consistent in Hcons.
    destruct (mapping_files s !! safe_key_name u key) as [m|] eqn:Hm.
    - exists m, false, s. unfold initialize_key_mapping. rewrite Hm. reflexivity.
    - destruct Hcons as (dir & Hraw & _).
      destruct (initialize_key_mapping_fresh_ok u cv key s dir Henc Hm Hraw) as (g & s' & H).
      eauto. }
  destruct Hinit as (m & b & s' & Hinit). rewrite Hinit.
  destruct (encrypt_loop_ok u rand m (safe_key_name u key) text 0 empty_used [])
    as [out Hout].
  { intros i Hi. rewrite empty_used_lookup by exact Hi. eauto. }
  rewrite Hout. exists out, b, s', m. auto.
Qed.


Lemma sample_store_consistent : store_consistent cpython toy_cv (lit "KEY") sample_fs.
Proof.
  unfold store_consistent, sample_fs. cbn [mapping_files key_images raw_img].
  rewrite lookup_empty.
  exists sample_corpus. split; [reflexivity|].
  intros k name content old _ H. rewrite lookup_empty in H. discriminate H.
Qed.

Lemma encrypt_avoids_repetition_witness :
  exists urls built s' mapping,
    api_encrypt_text cpython toy_cv (fun n => n) (Some (lit "KEY")) (Some (lit "jxj")) sample_fs
      = (Ok (urls, built), s')
    /\ mapping_files s' !! safe_key_name cpython (str_strip cpython (lit "KEY")) = Some mapping
    /\ api_encrypt_text cpython toy_cv (fun n => n) (Some (lit "KEY")) (Some (lit "jxj")) s'
       = (Ok (urls, false), s').
Proof.
  destruct (api_encrypt_text_ok cpython toy_cv (fun n => n) (Some (lit "KEY"))
              (Some (lit "jxj")) sample_fs)
    as (urls & built & s' & mapping & H & _ & _);
    [discriminate|discriminate|reflexivity|exact sample_store_consistent|].
  destruct (encrypt_avoids_repetition cpython toy_cv (fun n => n) (Some (lit "KEY"))
              (Some (lit "jxj")) sample_fs s' urls built H) as (m & Hm & _ & _ & Hagain).
  exists urls, built, s', m. split; [exact H|]. split; [exact Hm|exact Hagain].
Defined.



(** ** What a fresh build puts into the buckets *)

Lemma insert_by_name_In_iff (x y : pystr * bytes) (l : list (pystr * bytes)) :
  In y (insert_by_name x l) <-> y = x \/ In y l.
Proof.
  split; [apply insert_by_name_In|].
  induction l as [|z l IH]; cbn [insert_by_name].
  - intros [->|[]]. left. reflexivity.
  - destruct (str_leb (fst x) (fst z)).
    + intros [->|H]; [left; reflexivity|right; exact H].
    + intros [->|[->|H]]; [right; apply IH; auto|left; reflexivity|right; apply IH; auto].
Qed.

Lemma sorted_by_name_In_iff (y : pystr * bytes) (l : list (pystr * bytes)) :
  In y (sorted_by_name l) <-> In y l.
Proof.
  induction l as [|x l IH]; cbn [sorted_by_name fold_right]; [tauto|].
  fold (sorted_by_name l). rewrite insert_by_name_In_iff, IH. cbn. intuition congruence.
Qed.

Lemma flat_map_patterns {A B} (f : A -> list B) (g : A -> A) (l : list A) :
  flat_map (fun x => f x ++ f (g x)) l = flat_map f (flat_map (fun x => [x; g x]) l).
Proof.
  induction l as [|x l IH]; [reflexivity|].
  cbn [flat_map app]. rewrite IH, <- app_assoc. reflexivity.
Qed.

Lemma image_files_of_In (u : unicode_db) (dir : gmap pystr bytes) (name : pystr)
    (content : bytes) :
  In (name, content) (image_files_of u dir)
  <-> dir !! name = Some content /\ has_image_ext u name = true.
Proof.
  unfold image_files_of, has_image_ext.
  rewrite sorted_by_name_In_iff, flat_map_patterns. fold (patterns u).
  rewrite in_flat_map, existsb_exists. unfold glob. split.
  - intros (p & Hp & Hin). apply filter_In in Hin as [Hin He]. cbn [fst] in He.
    apply list_elem_of_In, elem_of_map_to_list in Hin. eauto.
  - intros (Hd & p & Hp & He). exists p. split; [exact Hp|].
    apply filter_In. split; [|exact He].
    apply list_elem_of_In, elem_of_map_to_list. exact Hd.
Qed.

Lemma bucket_insert (groups : gmap pystr (list pystr)) (idx i : Z) (l : list pystr) :
  0 <= idx < 29 -> 0 <= i < 29 ->
  bucket (<[str_of_int idx := l]> groups) i = if decide (idx = i) then l else bucket groups i.
Proof.
  intros Hidx Hi. unfold bucket. destruct (decide (idx = i)) as [->|Hne].
  - rewrite lookup_insert_eq. reflexivity.
  - rewrite lookup_insert_ne; [reflexivity|].
    intros Heq. apply Hne. apply str_of_int_inj; assumption.
Qed.

Lemma index_images_members (cv : cv2_api) (key key_name : pystr)
    (image_files : list (pystr * bytes)) :
  forall (groups groups' : gmap pystr (list pystr)) (s s' : fs),
    index_images cv key key_name image_files groups s = (inr groups', s') ->
    forall i name, 0 <= i < 29 ->
      (In name (bucket groups' i)
       <-> In name (bucket groups i)
           \/ exists content, In (name, content) image_files /\ indexed_at cv key content i).
Proof.
  induction image_files as [|[n0 content0] rest IH]; intros groups groups' s s'.
  - cbn. intros [= <- <-] i name Hi. split; [auto|]. intros [H|(c & [] & _)]. exact H.
  - cbn [index_images].
    destruct (image_to_binary cv content0) as [[|c bs]|] eqn:Hfp.
    + intros H i name Hi. rewrite (IH _ _ _ _ H i name Hi). split.
      * intros [Hg|(content & Hin & Hx)]; [auto|right; exists content; split; [right|]; auto].
      * intros [Hg|(content & [Heq|Hin] & Hx)];
          [auto| |right; exists content; split; [exact Hin|exact Hx]].
        injection Heq as <- <-. destruct Hx as (c & bs & Hx & _). congruence.
    + destruct (compute_char_index (Some (c :: bs)) key) as [e|idx] eqn:Hidx; [discriminate|].
      destruct (groups !! str_of_int idx) as [l|] eqn:Hl; [|discriminate].
      pose proof (compute_char_index_range _ _ _ Hidx) as Hr.
      intros H i name Hi. rewrite (IH _ _ _ _ H i name Hi).
      rewrite (bucket_insert groups idx i _ Hr Hi).
      assert (Hb : bucket groups idx = l) by (unfold bucket; rewrite Hl; reflexivity).
      destruct (decide (idx = i)) as [->|Hne].
      * rewrite in_app_iff, Hb. cbn [In]. split.
        -- intros [[Hg|[<-|[]]]|(content & Hin & Hx)].
           ++ auto.
           ++ right. exists content0. split; [left; reflexivity|]. exists c, bs. auto.
           ++ right. exists content. split; [right; exact Hin|exact Hx].
        -- intros [Hg|(content & [[= <- <-]|Hin] & Hx)];
             [auto|left; right; left; reflexivity|right; eauto].
      * split.
        -- intros [Hg|(content & Hin & Hx)]; [auto|right; exists content; split; [right|]; auto].
        -- intros [Hg|(content & [[= <- <-]|Hin] & (c' & bs' & Hfp' & Hidx'))];
             [auto| |right; exists content; split; [exact Hin|exists c', bs'; auto]].
           rewrite Hfp in Hfp'. injection Hfp' as <- <-. congruence.
    + intros H i name Hi. rewrite (IH _ _ _ _ H i name Hi). split.
      * intros [Hg|(content & Hin & Hx)]; [auto|right; exists content; split; [right|]; auto].
      * intros [Hg|(content & [Heq|Hin] & Hx)];
          [auto| |right; exists content; split; [exact Hin|exact Hx]].
        injection Heq as <- <-. destruct Hx as (c & bs & Hx & _). congruence.
Qed.

Lemma bucket_empty_groups (i : Z) : 0 <= i < 29 -> bucket empty_groups i = [].
Proof. intros Hi. unfold bucket. rewrite empty_groups_lookup by exact Hi. reflexivity. Qed.

Lemma fresh_build_unfold (u : unicode_db) (cv : cv2_api) (key : pystr) (s s' : fs)
    (groups : gmap pystr (list pystr)) :
  initialize_key_mapping u cv key s = (inr (groups, true), s') ->
  exists dir s2,
    raw_img s = Some dir
    /\ mapping_files s !! safe_key_name u key = None
    /\ index_images cv key (safe_key_name u key) (image_files_of u dir) empty_groups
         (Fs (raw_img s) ({[safe_key_name u key]} ∪ key_dirs s) (mapping_files s) (key_images s))
       = (inr groups, s2)
    /\ s' = Fs (raw_img s2) (key_dirs s2)
              (<[safe_key_name u key := groups]> (mapping_files s2)) (key_images s2).
Proof.
  unfold initialize_key_mapping.
  destruct (mapping_files s !! safe_key_name u key) as [m|] eqn:Hm; [discriminate|].
  cbn [raw_img]. destruct (raw_img s) as [dir|]; [|discriminate].
  fold (image_files_of u dir).
  destruct (index_images cv key (safe_key_name u key) (image_files_of u dir) empty_groups _)
    as [[e|g'] s2] eqn:Hloop; [discriminate|].
  intros [= <- <-]. exists dir, s2. auto.
Qed.

(** X1.  After a fresh build, bucket [i] lists exactly the names of the
    corpus files that match one of the eight patterns, can be read, and
    whose fingerprint has the keyed index [i] under the key. *)
Theorem fresh_build_buckets (u : unicode_db) (cv : cv2_api) (key : pystr) (s s' : fs)
    (groups : gmap pystr (list pystr)) :
  initialize_key_mapping u cv key s = (inr (groups, true), s') ->
  exists dir,
    raw_img s = Some dir
    /\ forall i name, 0 <= i < 29 ->
         (In name (bucket groups i)
          <-> exists content,
                dir !! name = Some content
                /\ has_image_ext u name = true
                /\ indexed_at cv key content i).
Proof.
  intros H. destruct (fresh_build_unfold u cv key s s' groups H) as (dir & s2 & Hraw & _ & Hloop & _).
  exists dir. split; [exact Hraw|]. intros i name Hi.
  rewrite (index_images_members cv key _ _ _ _ _ _ Hloop i name Hi).
  rewrite (bucket_empty_groups i Hi). split.
  - intros [[]|(content & Hin & Hx)]. apply image_files_of_In in Hin as [Hd He]. eauto.
  - intros (content & Hd & He & Hx). right. exists content. split; [|exact Hx].
    apply image_files_of_In. auto.
Qed.

Lemma fresh_build_buckets_witness :
  exists groups s',
    initialize_key_mapping cpython toy_cv (lit "KEY") sample_fs = (inr (groups, true), s')
    /\ (In (lit "s.jpeg") (bucket groups 26)
        <-> exists content,
              sample_corpus !! lit "s.jpeg" = Some content
              /\ has_image_ext cpython (lit "s.jpeg") = true
              /\ indexed_at toy_cv (lit "KEY") content 26).
Proof.
  destruct (initialize_key_mapping_fresh_ok cpython toy_cv (lit "KEY") sample_fs sample_corpus)
    as (groups & s' & H); [reflexivity|reflexivity|reflexivity|].
  exists groups, s'. split; [exact H|].
  destruct (fresh_build_buckets cpython toy_cv (lit "KEY") sample_fs s' groups H)
    as (dir & Hraw & Hb).
  injection Hraw as <-. apply Hb. lia.
Defined.

Lemma patterns_eq (u : unicode_db) :
  patterns u = [lit ".jpg"; lit ".JPG"; lit ".jpeg"; lit ".JPEG";
                lit ".png"; lit ".PNG"; lit ".bmp"; lit ".BMP"].
Proof. vm_compute. reflexivity. Qed.

Lemma starts_with_app (p s : pystr) :
  starts_with p s = true -> exists t, s = p ++ t.
Proof.
  revert s. induction p as [|a p IH]; intros s; [cbn; eauto|].
  destruct s as [|b s]; cbn [starts_with]; [discriminate|].
  intros H. apply andb_prop in H as [Hab Hs]. apply Z.eqb_eq in Hab as ->.
  destruct (IH s Hs) as [t ->]. exists t. reflexivity.
Qed.

Lemma patterns_exclusive (u : unicode_db) (p q name : pystr) :
  In p (patterns u) -> In q (patterns u) ->
  ends_with p name = true -> ends_with q name = true -> p = q.
Proof.
  rewrite patterns_eq. unfold ends_with. intros Hp Hq Hpn Hqn.
  apply starts_with_app in Hpn as [t Ht]. apply starts_with_app in Hqn as [t' Ht'].
  rewrite Ht in Ht'. clear Ht.
  cbn [In] in Hp, Hq.
  repeat (destruct Hp as [<-|Hp]); try contradiction;
    repeat (destruct Hq as [<-|Hq]); try contradiction;
    try reflexivity; exfalso; cbn in Ht'; discriminate Ht'.
Qed.

Lemma insert_by_name_perm (x : pystr * bytes) (l : list (pystr * bytes)) :
  Permutation (insert_by_name x l) (x :: l).
Proof.
  induction l as [|y l IH]; cbn [insert_by_name]; [reflexivity|].
  destruct (str_leb (fst x) (fst y)); [reflexivity|].
  rewrite IH. apply perm_swap.
Qed.

Lemma sorted_by_name_perm (l : list (pystr * bytes)) : Permutation (sorted_by_name l) l.
Proof.
  induction l as [|x l IH]; cbn [sorted_by_name fold_right]; [reflexivity|].
  fold (sorted_by_name l). rewrite insert_by_name_perm, IH. reflexivity.
Qed.

Lemma NoDup_fst_filter {A B} (f : A * B -> bool) (l : list (A * B)) :
  NoDup (map fst l) -> NoDup (map fst (List.filter f l)).
Proof.
  induction l as [|x l IH]; cbn [map List.filter]; [auto|].
  intros H. apply NoDup_cons in H as [Hx Hl].
  destruct (f x); [|auto]. cbn [map]. apply NoDup_cons. split; [|auto].
  intros Hin. apply Hx. apply list_elem_of_In in Hin. apply list_elem_of_In.
  apply in_map_iff in Hin as (y & Hy & Hin). apply filter_In in Hin as [Hin _].
  apply in_map_iff. eauto.
Qed.

Lemma globs_nodup (dir : gmap pystr bytes) (ps : list pystr) :
  NoDup ps ->
  (forall p q name, In p ps -> In q ps ->
     ends_with p name = true -> ends_with q name = true -> p = q) ->
  NoDup (map fst (flat_map (glob dir) ps)).
Proof.
  induction ps as [|p ps IH]; intros Hnd Hex; cbn [flat_map map]; [constructor|].
  apply NoDup_cons in Hnd as [Hp Hps]. rewrite map_app. apply NoDup_app. split; [|split].
  - apply NoDup_fst_filter. apply NoDup_fst_map_to_list.
  - intros name H1 H2. apply list_elem_of_In in H1, H2.
    apply in_map_iff in H1 as ([n1 c1] & <- & H1). unfold glob in H1.
    apply filter_In in H1 as [_ He1].
    apply in_map_iff in H2 as ([n2 c2] & Hn & H2). apply in_flat_map in H2 as (q & Hq & H2).
    unfold glob in H2. apply filter_In in H2 as [_ He2]. cbn [fst] in *. subst n2.
    assert (p = q) by (apply (Hex p q n1); cbn; auto). subst q.
    apply Hp. apply list_elem_of_In. exact Hq.
  - apply IH; [exact Hps|]. intros p' q' name Hp' Hq'. apply Hex; right; assumption.
Qed.

Lemma image_files_of_nodup (u : unicode_db) (dir : gmap pystr bytes) :
  NoDup (map fst (image_files_of u dir)).
Proof.
  unfold image_files_of.
  rewrite (Permutation_map fst (sorted_by_name_perm _)), flat_map_patterns.
  fold (patterns u). apply globs_nodup.
  - rewrite patterns_eq. apply (bool_decide_unpack _). vm_compute. exact I.
  - apply patterns_exclusive.
Qed.

Lemma index_images_nodup (cv : cv2_api) (key key_name : pystr)
    (image_files : list (pystr * bytes)) :
  forall (groups groups' : gmap pystr (list pystr)) (s s' : fs),
    NoDup (map fst image_files) ->
    (forall i, 0 <= i < 29 ->
       NoDup (bucket groups i)
       /\ forall n, In n (bucket groups i) -> ~ In n (map fst image_files)) ->
    index_images cv key key_name image_files groups s = (inr groups', s') ->
    forall i, 0 <= i < 29 -> NoDup (bucket groups' i).
Proof.
  induction image_files as [|[n0 content0] rest IH]; intros groups groups' s s' Hnd Hinv.
  - cbn. intros [= <- <-] i Hi. apply Hinv. exact Hi.
  - cbn [map fst] in Hnd. apply NoDup_cons in Hnd as [Hn0 Hrest].
    assert (Hinv' : forall i, 0 <= i < 29 ->
              NoDup (bucket groups i)
              /\ forall n, In n (bucket groups i) -> ~ In n (map fst rest)).
    { intros i Hi. destruct (Hinv i Hi) as [H1 H2]. split; [exact H1|].
      intros n Hn Hin. apply (H2 n Hn). right. exact Hin. }
    cbn [index_images].
    destruct (image_to_binary cv content0) as [[|c bs]|];
      [apply IH; assumption| |apply IH; assumption].
    destruct (compute_char_index (Some (c :: bs)) key) as [e|idx] eqn:Hidx; [discriminate|].
    destruct (groups !! str_of_int idx) as [l|] eqn:Hl; [|discriminate].
    pose proof (compute_char_index_range _ _ _ Hidx) as Hr.
    assert (Hb : bucket groups idx = l) by (unfold bucket; rewrite Hl; reflexivity).
    apply IH; [exact Hrest|]. intros i Hi.
    rewrite (bucket_insert groups idx i _ Hr Hi).
    destruct (decide (idx = i)) as [->|Hne]; [|apply Hinv'; exact Hi].
    destruct (Hinv i Hi) as [H1 H2]. rewrite Hb in H1, H2. split.
    + apply NoDup_app. split; [exact H1|]. split; [|apply NoDup_singleton].
      intros n Hn Hn'. apply list_elem_of_In in Hn. apply list_elem_of_In in Hn'.
      destruct Hn' as [<-|[]]. apply (H2 n0 Hn). left. reflexivity.
    + intros n Hn Hin. apply in_app_iff in Hn as [Hn|[<-|[]]].
      * apply (H2 n Hn). right. exact Hin.
      * apply Hn0. apply list_elem_of_In. exact Hin.
Qed.

(** X2.  After a fresh build no file name is listed twice: each bucket is
    free of duplicates, and a name listed in two buckets means the two are
    the same bucket. *)
Theorem fresh_build_lists_once (u : unicode_db) (cv : cv2_api) (key : pystr) (s s' : fs)
    (groups : gmap pystr (list pystr)) :
  initialize_key_mapping u cv key s = (inr (groups, true), s') ->
  (forall i, 0 <= i < 29 -> NoDup (bucket groups i))
  /\ (forall i j name, 0 <= i < 29 -> 0 <= j < 29 ->
        In name (bucket groups i) -> In name (bucket groups j) -> i = j).
Proof.
  intros H. destruct (fresh_build_unfold u cv key s s' groups H) as (dir & s2 & Hraw & _ & Hloop & _).
  split.
  - refine (index_images_nodup cv key _ _ _ _ _ _ (image_files_of_nodup u dir) _ Hloop).
    intros i Hi. rewrite (bucket_empty_groups i Hi). split; [constructor|intros n []].
  - intros i j name Hi Hj Hin Hjn.
    apply (index_images_members cv key _ _ _ _ _ _ Hloop i name Hi) in Hin.
    apply (index_images_members cv key _ _ _ _ _ _ Hloop j name Hj) in Hjn.
    rewrite (bucket_empty_groups i Hi) in Hin. rewrite (bucket_empty_groups j Hj) in Hjn.
    destruct Hin as [[]|(c1 & Hin1 & (a1 & b1 & Hf1 & Hx1))].
    destruct Hjn as [[]|(c2 & Hin2 & (a2 & b2 & Hf2 & Hx2))].
    apply image_files_of_In in Hin1 as [Hd1 _]. apply image_files_of_In in Hin2 as [Hd2 _].
    rewrite Hd1 in Hd2. injection Hd2 as <-. rewrite Hf1 in Hf2. injection Hf2 as <- <-.
    congruence.
Qed.

Lemma fresh_build_lists_once_witness :
  exists groups s',
    initialize_key_mapping cpython toy_cv (lit "KEY") sample_fs = (inr (groups, true), s')
    /\ NoDup (bucket groups 9)
    /\ (In (lit "a.jpg") (bucket groups 9) -> In (lit "a.jpg") (bucket groups 23) -> 9 = 23).
Proof.
  destruct (initialize_key_mapping_fresh_ok cpython toy_cv (lit "KEY") sample_fs sample_corpus)
    as (groups & s' & H); [reflexivity|reflexivity|reflexivity|].
  exists groups, s'. split; [exact H|].
  destruct (fresh_build_lists_once cpython toy_cv (lit "KEY") sample_fs s' groups H) as [Hn Hd].
  split; [apply Hn; lia|apply Hd; lia].
Defined.

(** ** The order within a bucket *)

Lemma str_leb_total (a b : pystr) : str_leb a b = false -> str_leb b a = true.
Proof.
  revert b. induction a as [|x a IH]; intros [|y b]; cbn [str_leb]; try discriminate; try reflexivity.
  destruct (Z.ltb_spec x y) as [Hlt|Hge]; [discriminate|]. cbn [orb].
  destruct (Z.eqb_spec x y) as [->|Hne]; cbn [andb].
  - intros Hab. rewrite (IH b Hab), Z.eqb_refl, orb_true_r. reflexivity.
  - intros _. destruct (Z.ltb_spec y x) as [Hlt'|Hge']; [reflexivity|lia].
Qed.

Lemma str_leb_trans (a b c : pystr) :
  str_leb a b = true -> str_leb b c = true -> str_leb a c = true.
Proof.
  revert b c. induction a as [|x a IH]; intros [|y b] [|z c]; cbn [str_leb];
    try discriminate; try reflexivity.
  intros H1 H2. apply orb_true_iff in H1, H2. apply orb_true_iff.
  rewrite !andb_true_iff, !Z.ltb_lt, !Z.eqb_eq in *.
  destruct H1 as [H1|[-> H1]]; destruct H2 as [H2|[-> H2]].
  - left. lia.
  - left. exact H1.
  - left. exact H2.
  - right. split; [reflexivity|]. eapply IH; eassumption.
Qed.

Lemma insert_by_name_sorted (x : pystr * bytes) (l : list (pystr * bytes)) :
  StronglySorted (fun a b => str_leb (fst a) (fst b) = true) l ->
  StronglySorted (fun a b => str_leb (fst a) (fst b) = true) (insert_by_name x l).
Proof.
  induction 1 as [|y l Hl IH Hy]; cbn [insert_by_name].
  - constructor; constructor.
  - destruct (str_leb (fst x) (fst y)) eqn:Hxy.
    + constructor; [constructor; assumption|].
      constructor; [exact Hxy|]. rewrite List.Forall_forall in Hy |- *.
      intros z Hz. eapply str_leb_trans; [exact Hxy|apply Hy; exact Hz].
    + constructor; [exact IH|]. rewrite List.Forall_forall in Hy |- *.
      intros z Hz. apply insert_by_name_In in Hz as [->|Hz]; [|apply Hy; exact Hz].
      apply str_leb_total. exact Hxy.
Qed.

Lemma sorted_by_name_sorted (l : list (pystr * bytes)) :
  StronglySorted (fun a b => str_leb (fst a) (fst b) = true) (sorted_by_name l).
Proof.
  induction l as [|x l IH]; cbn [sorted_by_name fold_right]; [constructor|].
  apply insert_by_name_sorted. exact IH.
Qed.

Lemma sorted_snoc (l : list pystr) (x : pystr) :
  StronglySorted (fun a b => str_leb a b = true) l ->
  (forall y, In y l -> str_leb y x = true) ->
  StronglySorted (fun a b => str_leb a b = true) (l ++ [x]).
Proof.
  induction 1 as [|y l Hl IH Hy]; intros Hx; cbn [app].
  - constructor; constructor.
  - constructor; [apply IH; intros z Hz; apply Hx; right; exact Hz|].
    apply Forall_app. split; [exact Hy|]. constructor; [|constructor].
    apply Hx. left. reflexivity.
Qed.

Lemma index_images_sorted (cv : cv2_api) (key key_name : pystr)
    (image_files : list (pystr * bytes)) :
  forall (groups groups' : gmap pystr (list pystr)) (s s' : fs),
    StronglySorted (fun a b => str_leb (fst a) (fst b) = true) image_files ->
    (forall i, 0 <= i < 29 ->
       StronglySorted (fun a b => str_leb a b = true) (bucket groups i)
       /\ forall n f, In n (bucket groups i) -> In f image_files -> str_leb n (fst f) = true) ->
    index_images cv key key_name image_files groups s = (inr groups', s') ->
    forall i, 0 <= i < 29 -> StronglySorted (fun a b => str_leb a b = true) (bucket groups' i).
Proof.
  induction image_files as [|[n0 content0] rest IH]; intros groups groups' s s' Hs Hinv.
  - cbn. intros [= <- <-] i Hi. apply Hinv. exact Hi.
  - apply StronglySorted_inv in Hs as [Hrest Hn0]. rewrite List.Forall_forall in Hn0.
    assert (Hinv' : forall i, 0 <= i < 29 ->
              StronglySorted (fun a b => str_leb a b = true) (bucket groups i)
              /\ forall n f, In n (bucket groups i) -> In f rest -> str_leb n (fst f) = true).
    { intros i Hi. destruct (Hinv i Hi) as [H1 H2]. split; [exact H1|].
      intros n f Hn Hf. apply (H2 n f Hn). right. exact Hf. }
    cbn [index_images].
    destruct (image_to_binary cv content0) as [[|c bs]|];
      [apply IH; assumption| |apply IH; assumption].
    destruct (compute_char_index (Some (c :: bs)) key) as [e|idx] eqn:Hidx; [discriminate|].
    destruct (groups !! str_of_int idx) as [l|] eqn:Hl; [|discriminate].
    pose proof (compute_char_index_range _ _ _ Hidx) as Hr.
    assert (Hb : bucket groups idx = l) by (unfold bucket; rewrite Hl; reflexivity).
    apply IH; [exact Hrest|]. intros i Hi.
    rewrite (bucket_insert groups idx i _ Hr Hi).
    destruct (decide (idx = i)) as [->|Hne]; [|apply Hinv'; exact Hi].
    destruct (Hinv i Hi) as [H1 H2]. rewrite Hb in H1, H2. split.
    + apply sorted_snoc; [exact H1|]. intros y Hy.
      apply (H2 y (n0, content0) Hy). left. reflexivity.
    + intros n f Hn Hf. apply in_app_iff in Hn as [Hn|[<-|[]]].
      * apply (H2 n f Hn). right. exact Hf.
      * apply (Hn0 f Hf).
Qed.

(** X3.  After a fresh build every bucket lists its files in ascending
    order of their names (code point by code point), the order in which
    the sorted corpus is gone through. *)
Theorem fresh_build_buckets_sorted (u : unicode_db) (cv : cv2_api) (key : pystr) (s s' : fs)
    (groups : gmap pystr (list pystr)) :
  initialize_key_mapping u cv key s = (inr (groups, true), s') ->
  forall i, 0 <= i < 29 ->
    StronglySorted (fun a b => str_leb a b = true) (bucket groups i).
Proof.
  intros H. destruct (fresh_build_unfold u cv key s s' groups H) as (dir & s2 & _ & _ & Hloop & _).
  refine (index_images_sorted cv key _ _ _ _ _ _ (sorted_by_name_sorted _) _ Hloop).
  intros i Hi. rewrite (bucket_empty_groups i Hi). split; [constructor|intros n f []].
Qed.

Lemma fresh_build_buckets_sorted_witness :
  exists groups s',
    initialize_key_mapping cpython toy_cv (lit "KEY") sample_fs = (inr (groups, true), s')
    /\ bucket groups 9 = [lit "a.jpg"; lit "d.jpg"]
    /\ StronglySorted (fun a b => str_leb a b = true) (bucket groups 9).
Proof.
  destruct (initialize_key_mapping_fresh_ok cpython toy_cv (lit "KEY") sample_fs sample_corpus)
    as (groups & s' & H); [reflexivity|reflexivity|reflexivity|].
  exists groups, s'. split; [exact H|]. split.
  - destruct (sample_buckets groups true s' H) as [H9 _]. unfold bucket. rewrite H9. reflexivity.
  - apply (fresh_build_buckets_sorted cpython toy_cv (lit "KEY") sample_fs s' groups H). lia.
Defined.

(** ** The build and the rest of the store *)

Lemma index_images_groups_indep (cv : cv2_api) (key key_name key_name' : pystr)
    (image_files : list (pystr * bytes)) :
  forall (groups : gmap pystr (list pystr)) (s1 s2 : fs),
    fst (index_images cv key key_name image_files groups s1)
    = fst (index_images cv key key_name' image_files groups s2).
Proof.
  induction image_files as [|[name content] rest IH]; intros groups s1 s2; [reflexivity|].
  cbn [index_images].
  destruct (image_to_binary cv content) as [[|c bs]|]; [apply IH| |apply IH].
  destruct (compute_char_index (Some (c :: bs)) key) as [e|idx]; [reflexivity|].
  destruct (groups !! str_of_int idx); [apply IH|reflexivity].
Qed.

(** X4.  The outcome of a build (the mapping, or the exception) is a
    function of the key and the corpus alone: two stores with the same
    corpus directory and no mapping for the key give the same outcome,
    whatever else they hold (other keys, stale copies, directories).  In
    particular, rebuilding after the mapping file is deleted gives the same
    buckets. *)
Theorem build_depends_on_corpus_only (u : unicode_db) (cv : cv2_api) (key : pystr)
    (s1 s2 : fs) :
  raw_img s1 = raw_img s2 ->
  mapping_files s1 !! safe_key_name u key = None ->
  mapping_files s2 !! safe_key_name u key = None ->
  fst (initialize_key_mapping u cv key s1) = fst (initialize_key_mapping u cv key s2).
Proof.
  intros Hraw H1 H2. unfold initialize_key_mapping. rewrite H1, H2. cbn [raw_img].
  rewrite Hraw. destruct (raw_img s2) as [dir|]; [|reflexivity].
  match goal with
  | |- fst (match index_images cv key ?kn ?files ?g ?a with _ => _ end)
       = fst (match index_images cv key ?kn ?files ?g ?b with _ => _ end) =>
      pose proof (index_images_groups_indep cv key kn kn files g a b) as Hi;
      destruct (index_images cv key kn files g a) as [[e1|g1] t1];
      destruct (index_images cv key kn files g b) as [[e2|g2] t2]
  end; cbn [fst] in *; congruence.
Qed.

Lemma build_depends_on_corpus_only_witness :
  fst (initialize_key_mapping cpython toy_cv (lit "KEY") sample_fs)
  = fst (initialize_key_mapping cpython toy_cv (lit "KEY")
           (Fs (Some sample_corpus) {[lit "OTHER"]} {[lit "OTHER" := ∅]}
               {[(lit "KEY", lit "9", lit "a.jpg") := [1; 2; 3]]})).
Proof.
  apply (build_depends_on_corpus_only cpython toy_cv (lit "KEY")); reflexivity.
Defined.

Lemma index_images_frame (cv : cv2_api) (key key_name : pystr)
    (image_files : list (pystr * bytes)) :
  forall (groups : gmap pystr (list pystr)) (s s' : fs)
         (r : result (gmap pystr (list pystr))),
    index_images cv key key_name image_files groups s = (r, s') ->
    forall kn k n, kn <> key_name -> key_images s' !! (kn, k, n) = key_images s !! (kn, k, n).
Proof.
  induction image_files as [|[name content] rest IH]; intros groups s s' r.
  - cbn. intros [= <- <-]. reflexivity.
  - cbn [index_images].
    destruct (image_to_binary cv content) as [[|c bs]|]; [apply IH| |apply IH].
    destruct (compute_char_index (Some (c :: bs)) key) as [e|idx].
    { intros [= <- <-]. reflexivity. }
    destruct (key_images s !! (key_name, str_of_int idx, name)) as [old|] eqn:Hold.
    + destruct (groups !! str_of_int idx); [apply IH|]. intros [= <- <-]. reflexivity.
    + destruct (groups !! str_of_int idx).
      * intros H kn k n Hne. rewrite (IH _ _ _ _ H kn k n Hne). cbn [key_images].
        apply lookup_insert_ne. congruence.
      * intros [= <- <-] kn k n Hne. cbn [key_images]. apply lookup_insert_ne. congruence.
Qed.

(** X5.  Whatever its outcome, [initialize_key_mapping] leaves the corpus
    as it is, never removes or overwrites a file below [static/keys],
    touches no file and no mapping of another key name, and only adds to
    the key directories; when it raises, no mapping file at all is
    written. *)
Theorem indexing_frame (u : unicode_db) (cv : cv2_api) (key : pystr) (s s' : fs)
    (r : result (gmap pystr (list pystr) * bool)) :
  initialize_key_mapping u cv key s = (r, s') ->
  raw_img s' = raw_img s
  /\ key_images s ⊆ key_images s'
  /\ (forall kn k n, kn <> safe_key_name u key ->
        key_images s' !! (kn, k, n) = key_images s !! (kn, k, n))
  /\ (forall kn, kn <> safe_key_name u key ->
        mapping_files s' !! kn = mapping_files s !! kn)
  /\ key_dirs s ⊆ key_dirs s'
  /\ (forall e, r = inl e -> mapping_files s' = mapping_files s).
Proof.
  unfold initialize_key_mapping.
  destruct (mapping_files s !! safe_key_name u key) as [m|] eqn:Hm.
  { intros [= <- <-]. split; [reflexivity|]. split; [reflexivity|].
    split; [reflexivity|]. split; [reflexivity|]. split; reflexivity. }
  cbn [raw_img]. destruct (raw_img s) as [dir|] eqn:Hraw.
  - match goal with
    | |- context [index_images cv key ?kn ?files ?g ?s1] =>
        destruct (index_images cv key kn files g s1) as [[e|g'] s2] eqn:Hloop
    end.
    + pose proof (index_images_state _ _ _ _ _ _ _ _ Hloop) as (H1 & H2 & H3 & H4).
      pose proof (index_images_frame _ _ _ _ _ _ _ _ Hloop) as H5.
      cbn [raw_img key_dirs mapping_files key_images] in *.
      intros [= <- <-]. split; [congruence|]. split; [exact H4|]. split; [exact H5|].
      split; [intros kn _; rewrite H3; reflexivity|].
      split; [rewrite H2; apply union_subseteq_r|]. intros e' _. exact H3.
    + pose proof (index_images_state _ _ _ _ _ _ _ _ Hloop) as (H1 & H2 & H3 & H4).
      pose proof (index_images_frame _ _ _ _ _ _ _ _ Hloop) as H5.
      cbn [raw_img key_dirs mapping_files key_images] in *.
      intros [= <- <-]. cbn [raw_img key_dirs mapping_files key_images].
      split; [congruence|]. split; [exact H4|]. split; [exact H5|].
      split; [intros kn Hne; rewrite lookup_insert_ne by congruence; rewrite H3; reflexivity|].
      split; [rewrite H2; apply union_subseteq_r|]. intros e' He. discriminate He.
  - intros [= <- <-]. cbn [raw_img key_dirs mapping_files key_images].
    split; [reflexivity|]. split; [reflexivity|]. split; [reflexivity|].
    split; [reflexivity|]. split; [apply union_subseteq_r|]. reflexivity.
Qed.

Lemma indexing_frame_witness :
  exists r s',
    initialize_key_mapping cpython toy_cv (lit "KEY") sample_fs = (r, s')
    /\ raw_img s' = Some sample_corpus
    /\ mapping_files s' !! lit "OTHER" = None.
Proof.
  destruct (initialize_key_mapping cpython toy_cv (lit "KEY") sample_fs) as [r s'] eqn:H.
  exists r, s'. split; [reflexivity|].
  destruct (indexing_frame cpython toy_cv (lit "KEY") sample_fs s' r H)
    as (Hraw & _ & _ & Hmap & _).
  split; [exact Hraw|]. rewrite Hmap; [reflexivity|discriminate].
Defined.

Lemma index_images_exact (cv : cv2_api) (key key_name : pystr) (dir : gmap pystr bytes)
    (image_files : list (pystr * bytes)) :
  forall (groups groups' : gmap pystr (list pystr)) (s s' : fs),
    (forall f, In f image_files -> dir !! fst f = Some (snd f)) ->
    (forall k n old, key_images s !! (key_name, k, n) = Some old -> dir !! n = Some old) ->
    (forall i n, 0 <= i < 29 -> In n (bucket groups i) ->
       exists content, dir !! n = Some content
                       /\ key_images s !! (key_name, str_of_int i, n) = Some content) ->
    index_images cv key key_name image_files groups s = (inr groups', s') ->
    forall i n, 0 <= i < 29 -> In n (bucket groups' i) ->
      exists content, dir !! n = Some content
                      /\ key_images s' !! (key_name, str_of_int i, n) = Some content.
Proof.
  induction image_files as [|[name content] rest IH]; intros groups groups' s s' Hdir Hst Hinv.
  - cbn. intros [= <- <-]. exact Hinv.
  - assert (Hdir' : forall f, In f rest -> dir !! fst f = Some (snd f))
      by (intros f Hf; apply Hdir; right; exact Hf).
    pose proof (Hdir (name, content) (or_introl eq_refl)) as Hname. cbn [fst snd] in Hname.
    cbn [index_images].
    destruct (image_to_binary cv content) as [[|c bs]|];
      [apply IH; assumption| |apply IH; assumption].
    destruct (compute_char_index (Some (c :: bs)) key) as [e|idx] eqn:Hidx; [discriminate|].
    pose proof (compute_char_index_range _ _ _ Hidx) as Hr.
    destruct (groups !! str_of_int idx) as [l|] eqn:Hl; [|discriminate].
    assert (Hb : bucket groups idx = l) by (unfold bucket; rewrite Hl; reflexivity).
    destruct (key_images s !! (key_name, str_of_int idx, name)) as [old|] eqn:Hold.
    + apply IH; [exact Hdir'|exact Hst|].
      intros i n Hi Hn. rewrite (bucket_insert groups idx i _ Hr Hi) in Hn.
      destruct (decide (idx = i)) as [->|Hne]; [|apply Hinv; assumption].
      apply in_app_iff in Hn as [Hn|[<-|[]]]; [apply Hinv; [exact Hi|rewrite Hb; exact Hn]|].
      exists old. split; [exact (Hst _ _ _ Hold)|exact Hold].
    + apply IH; [exact Hdir'| |]; cbn [key_images].
      * intros k n old Ho.
        destruct (decide ((key_name, str_of_int idx, name) = (key_name, k, n))) as [Heq|Hne].
        -- injection Heq as <- <-. rewrite lookup_insert_eq in Ho. congruence.
        -- rewrite lookup_insert_ne in Ho by exact Hne. exact (Hst _ _ _ Ho).
      * intros i n Hi Hn. rewrite (bucket_insert groups idx i _ Hr Hi) in Hn.
        destruct (decide (idx = i)) as [->|Hne].
        -- apply in_app_iff in Hn as [Hn|[<-|[]]].
           ++ destruct (Hinv i n Hi) as (content' & Hd & Hk); [rewrite Hb; exact Hn|].
              exists content'. split; [exact Hd|].
              destruct (decide ((key_name, str_of_int i, name) = (key_name, str_of_int i, n)))
                as [Heq|Hne'].
              ** injection Heq as <-. congruence.
              ** rewrite lookup_insert_ne by exact Hne'. exact Hk.
           ++ exists content. split; [exact Hname|apply lookup_insert_eq].
        -- destruct (Hinv i n Hi Hn) as (content' & Hd & Hk).
           exists content'. split; [exact Hd|].
           rewrite lookup_insert_ne; [exact Hk|].
           intros [= Heq _]. apply Hne. apply str_of_int_inj; assumption.
Qed.

(** X6.  Byte-exact materialization: if every file already below the key
    directory equals the corpus file of the same name (in particular when
    the directory is new), then after a fresh build every file listed in
    bucket [i] is present at [<key_name>/<i>/<name>] with exactly the bytes
    of the corpus file [name]. *)
Theorem fresh_build_copies_exact (u : unicode_db) (cv : cv2_api) (key : pystr) (s s' : fs)
    (groups : gmap pystr (list pystr)) (dir : gmap pystr bytes) :
  raw_img s = Some dir ->
  (forall k n old,
     key_images s !! (safe_key_name u key, k, n) = Some old -> dir !! n = Some old) ->
  initialize_key_mapping u cv key s = (inr (groups, true), s') ->
  forall i name, 0 <= i < 29 -> In name (bucket groups i) ->
    exists content,
      dir !! name = Some content
      /\ key_images s' !! (safe_key_name u key, str_of_int i, name) = Some content.
Proof.
  intros Hraw Hst H.
  destruct (fresh_build_unfold u cv key s s' groups H) as (dir' & s2 & Hraw' & _ & Hloop & ->).
  rewrite Hraw in Hraw'. injection Hraw' as <-. cbn [key_images].
  refine (index_images_exact cv key _ dir _ _ _ _ _ _ _ _ Hloop).
  - intros [n c] Hf. apply image_files_of_In in Hf as [Hd _]. exact Hd.
  - exact Hst.
  - intros i n Hi Hn. rewrite (bucket_empty_groups i Hi) in Hn. destruct Hn.
Qed.

Lemma fresh_build_copies_exact_witness :
  exists groups s',
    initialize_key_mapping cpython toy_cv (lit "KEY") sample_fs = (inr (groups, true), s')
    /\ exists content,
         sample_corpus !! lit "s.jpeg" = Some content
         /\ key_images s' !! (safe_key_name cpython (lit "KEY"), str_of_int 26, lit "s.jpeg")
            = Some content.
Proof.
  destruct (initialize_key_mapping_fresh_ok cpython toy_cv (lit "KEY") sample_fs sample_corpus)
    as (groups & s' & H); [reflexivity|reflexivity|reflexivity|].
  exists groups, s'. split; [exact H|].
  apply (fresh_build_copies_exact cpython toy_cv (lit "KEY") sample_fs s' groups sample_corpus).
  - reflexivity.
  - intros k n old Ho. unfold sample_fs in Ho. cbn [key_images] in Ho.
    rewrite lookup_empty in Ho. discriminate Ho.
  - exact H.
  - lia.
  - destruct (sample_buckets groups true s' H) as [_ H26]. unfold bucket. rewrite H26.
    left. reflexivity.
Defined.

(** X7.  A mapping once returned for a key is what every later call gets
    for any key with the same sanitized name, as long as the mapping file
    is there: it is loaded as it is (not built), the store is left
    untouched, and neither the corpus (changed, or gone) nor the raw key is
    looked at. *)
Theorem persisted_mapping_is_reused (u : unicode_db) (cv : cv2_api) (key key' : pystr)
    (s s' later : fs) (m : gmap pystr (list pystr)) (b : bool) :
  initialize_key_mapping u cv key s = (inr (m, b), s') ->
  safe_key_name u key' = safe_key_name u key ->
  mapping_files later !! safe_key_name u key = mapping_files s' !! safe_key_name u key ->
  initialize_key_mapping u cv key' later = (inr (m, false), later).
Proof.
  intros H Hname Hlater.
  apply initialize_key_mapping_persisted in H.
  unfold initialize_key_mapping. rewrite Hname, Hlater, H. reflexivity.
Qed.

Lemma persisted_mapping_is_reused_witness :
  exists m b s',
    initialize_key_mapping cpython toy_cv (lit "a b") sample_fs = (inr (m, b), s')
    /\ initialize_key_mapping cpython toy_cv (lit "a_b")
         (Fs None (key_dirs s') (mapping_files s') (key_images s'))
       = (inr (m, false), Fs None (key_dirs s') (mapping_files s') (key_images s')).
Proof.
  destruct (initialize_key_mapping_fresh_ok cpython toy_cv (lit "a b") sample_fs sample_corpus)
    as (m & s' & H); [reflexivity|reflexivity|reflexivity|].
  exists m, true, s'. split; [exact H|].
  apply (persisted_mapping_is_reused cpython toy_cv (lit "a b") (lit "a_b") sample_fs s' _ m true H);
    reflexivity.
Defined.


(** ** Key names and minted keys *)

Lemma str_in_single (c : codepoint) (s : pystr) : str_in [c] s = true <-> In c s.
Proof.
  unfold str_in, str_find. generalize 0 as off.
  induction s as [|d s IH]; intros off; cbn [str_find_from starts_with In].
  - split; [discriminate|tauto].
  - destruct (Z.eqb_spec c d) as [->|Hne]; cbn [andb].
    + split; auto.
    + rewrite IH. split; [auto|]. intros [H|H]; [congruence|exact H].
Qed.

Lemma safe_char_fixed (u : unicode_db) (c : codepoint) :
  let f c := if isalnum_cp u c || str_in [c] (lit "-_.") then c else 95 in
  name_char u (f c) /\ f (f c) = f c.
Proof.
  intros f.
  assert (H95 : f 95 = 95).
  { unfold f. replace (str_in [95] (lit "-_.")) with true by reflexivity.
    rewrite orb_true_r. reflexivity. }
  assert (Hn95 : name_char u 95) by (right; cbn; tauto).
  unfold f at 1 3 4. destruct (isalnum_cp u c || str_in [c] (lit "-_.")) eqn:Hc.
  - split.
    + apply orb_true_iff in Hc as [H|H]; [left; exact H|right; apply str_in_single; exact H].
    + unfold f. rewrite Hc. reflexivity.
  - split; [exact Hn95|exact H95].
Qed.

(** X8.  [safe_key_name] never returns the empty string; every character
    of its result is alphanumeric or one of "-", "_", "."; a non-empty key
    keeps its length; and the function is idempotent, so a stored key name
    used as a key maps to its own directory. *)
Theorem safe_key_name_shape (u : unicode_db) (key : pystr) :
  safe_key_name u key <> []
  /\ Forall (name_char u) (safe_key_name u key)
  /\ (key <> [] -> length (safe_key_name u key) = length key)
  /\ safe_key_name u (safe_key_name u key) = safe_key_name u key.
Proof.
  destruct key as [|c key].
  - split; [discriminate|]. split; [|split; [congruence|reflexivity]].
    apply List.Forall_forall. intros x Hx. left.
    cbn in Hx. repeat (destruct Hx as [<-|Hx]; [reflexivity|]). destruct Hx.
  - unfold safe_key_name at 1 2 3.
    set (f := fun c => if isalnum_cp u c || str_in [c] (lit "-_.") then c else 95).
    cbn [map]. split; [discriminate|]. split; [|split].
    + apply List.Forall_forall. intros x Hx. change (In x (map f (c :: key))) in Hx.
      apply in_map_iff in Hx as (y & <- & _). apply (safe_char_fixed u y).
    + intros _. cbn [length]. rewrite length_map. reflexivity.
    + unfold safe_key_name. fold f. cbn [map].
      f_equal; [apply (safe_char_fixed u c)|].
      rewrite map_map. apply map_ext. intros y. apply (safe_char_fixed u y).
Qed.

Lemma safe_key_name_shape_witness :
  safe_key_name cpython (lit "a b/c") = lit "a_b_c"
  /\ length (safe_key_name cpython (lit "a b/c")) = length (lit "a b/c").
Proof.
  destruct (safe_key_name_shape cpython (lit "a b/c")) as (_ & _ & Hl & _).
  split; [reflexivity|]. apply Hl. discriminate.
Defined.

Lemma lstrip_fixed (u : unicode_db) (s : pystr) :
  Forall (fun c => isspace_cp u c = false) s -> lstrip u s = s.
Proof. destruct 1 as [|c s Hc _]; cbn [lstrip]; [reflexivity|]. rewrite Hc. reflexivity. Qed.

Lemma str_strip_fixed (u : unicode_db) (s : pystr) :
  Forall (fun c => isspace_cp u c = false) s -> str_strip u s = s.
Proof.
  intros H. unfold str_strip. rewrite (lstrip_fixed u s H).
  rewrite lstrip_fixed; [apply rev_involutive|].
  apply List.Forall_forall. intros x Hx. apply in_rev in Hx.
  rewrite List.Forall_forall in H. auto.
Qed.

Lemma key_charset_chars (u : unicode_db) (c : codepoint) :
  In c KEY_CHARSET ->
  isalnum_cp u c = true /\ isspace_cp u c = false /\ encodable_cp c = true.
Proof.
  intros H. cbn in H.
  repeat (destruct H as [<-|H]; [repeat split|]). destruct H.
Qed.

Lemma random_chars_spec (rand : nat -> nat) (n : nat) :
  forall pos, exists key,
    random_chars rand pos n = inr key
    /\ length key = n
    /\ Forall (fun c => In c KEY_CHARSET) key.
Proof.
  induction n as [|n IH]; intros pos; cbn [random_chars].
  - exists []. split; [reflexivity|]. split; [reflexivity|constructor].
  - destruct (random_choice_ok (rand pos) KEY_CHARSET ltac:(discriminate)) as [c Hc].
    rewrite Hc. apply random_choice_In in Hc.
    destruct (IH (S pos)) as (key & -> & Hl & Hin).
    exists (c :: key). split; [reflexivity|]. split; [cbn; lia|]. constructor; assumption.
Qed.

(** X9.  [generate_random_key] always returns a key of the requested
    length over the 32 characters of [KEY_CHARSET] (no I, O, 0 or 1).  Such
    a key is left as it is by the handlers' trimming and by
    [safe_key_name], and the UTF-8 codec accepts it, so the keyed index
    never raises for it. *)
Theorem generate_random_key_shape (u : unicode_db) (rand : nat -> nat) (n : nat) :
  exists key,
    generate_random_key rand n = inr key
    /\ length key = n
    /\ Forall (fun c => In c KEY_CHARSET) key
    /\ str_strip u key = key
    /\ (key <> [] -> safe_key_name u key = key)
    /\ encodable key
    /\ forall fingerprint, encodable fingerprint ->
         exists idx, compute_char_index (Some fingerprint) key = inr idx /\ 0 <= idx <= 28.
Proof.
  destruct (random_chars_spec rand n 0) as (key & Hk & Hl & Hin).
  exists key. split; [exact Hk|]. split; [exact Hl|]. split; [exact Hin|].
  rewrite List.Forall_forall in Hin.
  assert (Henc : encodable key).
  { unfold encodable. apply forallb_forall. intros c Hc.
    apply (key_charset_chars u c (Hin c Hc)). }
  split; [|split; [|split; [exact Henc|]]].
  - apply str_strip_fixed. apply List.Forall_forall. intros c Hc.
    apply (key_charset_chars u c (Hin c Hc)).
  - intros Hne. unfold safe_key_name.
    assert (Hm : map (fun c => if isalnum_cp u c || str_in [c] (lit "-_.") then c else 95) key
                 = key).
    { rewrite <- (map_id key) at 2. apply map_ext_in. intros c Hc.
      destruct (key_charset_chars u c (Hin c Hc)) as (-> & _). reflexivity. }
    rewrite Hm. destruct key; [congruence|reflexivity].
  - intros fp Hfp.
    destruct (compute_char_index_encodable (Some fp) key Henc Hfp)
      as (data & value & _ & _ & _ & _ & Hc & Hr).
    eauto.
Qed.

Lemma generate_random_key_shape_witness :
  exists key,
    generate_random_key (fun n => (7 * n + 3)%nat) 8 = inr key
    /\ length key = 8%nat
    /\ safe_key_name cpython key = key
    /\ exists idx,
         compute_char_index (Some (lit "00000000000000000000000000000000")) key = inr idx
         /\ 0 <= idx <= 28.
Proof.
  destruct (generate_random_key_shape cpython (fun n => (7 * n + 3)%nat) 8)
    as (key & Hk & Hl & _ & _ & Hs & _ & Hc).
  exists key. split; [exact Hk|]. split; [exact Hl|]. split.
  - apply Hs. destruct key; [discriminate Hl|discriminate].
  - apply Hc. reflexivity.
Defined.

(** ** The answers of the two cipher handlers *)





Lemma decrypt_loop_acc (cv : cv2_api) (key : pystr) (files : list (pystr * bytes)) :
  forall chars,
    decrypt_loop cv key files chars
    = match decrypt_loop cv key files [] with
      | inr more => inr (chars ++ more)
      | inl e => inl e
      end.
Proof.
  induction files as [|f rest IH]; intros chars; cbn [decrypt_loop].
  - rewrite app_nil_r. reflexivity.
  - destruct (image_to_binary cv (snd f)) as [[|c bs]|]; [apply IH| |apply IH].
    destruct (compute_char_index (Some (c :: bs)) key); [reflexivity|].
    destruct (index_to_char z) as [e|ch]; [reflexivity|].
    rewrite (IH (chars ++ [ch])), (IH ([] ++ [ch])).
    destruct (decrypt_loop cv key rest []); [reflexivity|].
    rewrite <- app_assoc. reflexivity.
Qed.

Lemma decrypt_loop_app (cv : cv2_api) (key : pystr) (a b : list (pystr * bytes))
    (ta tb : list pystr) :
  decrypt_loop cv key a [] = inr ta ->
  decrypt_loop cv key b [] = inr tb ->
  decrypt_loop cv key (a ++ b) [] = inr (ta ++ tb).
Proof.
  revert ta. induction a as [|f a IH]; intros ta; cbn [decrypt_loop app].
  - intros [= <-] Hb. exact Hb.
  - destruct (image_to_binary cv (snd f)) as [[|c bs]|]; [apply IH| |apply IH].
    destruct (compute_char_index (Some (c :: bs)) key); [discriminate|].
    destruct (index_to_char z) as [e|ch]; [discriminate|].
    rewrite (decrypt_loop_acc cv key a [ch]), (decrypt_loop_acc cv key (a ++ b) [ch]).
    destruct (decrypt_loop cv key a []) as [e|ta'] eqn:Ha; [discriminate|].
    intros [= <-] Hb. rewrite (IH ta' eq_refl Hb). reflexivity.
Qed.

(** X11.  Decoding distributes over the upload list: when two uploads
    are decoded to [ta] and [tb] with a key, the upload made of the first
    followed by the second is decoded to [ta] followed by [tb] with that
    key.  The character an image stands for does not depend on the images
    around it, and the order of the text is the order of the upload. *)
Theorem api_decrypt_images_app (u : unicode_db) (cv : cv2_api) (form_key : option pystr)
    (a b : list (pystr * bytes)) (ta tb : pystr) :
  api_decrypt_images u cv form_key a = Ok ta ->
  api_decrypt_images u cv form_key b = Ok tb ->
  api_decrypt_images u cv form_key (a ++ b) = Ok (ta ++ tb).
Proof.
  unfold api_decrypt_images.
  destruct (is_empty_str (str_strip u (default [] form_key))); [discriminate|].
  destruct a as [|fa a']; [discriminate|]. destruct b as [|fb b']; [discriminate|].
  destruct (decrypt_loop cv _ (fa :: a') []) as [e|ca] eqn:Ha; [discriminate|].
  destruct (decrypt_loop cv _ (fb :: b') []) as [e|cb] eqn:Hb; [discriminate|].
  intros [= <-] [= <-].
  rewrite (decrypt_loop_app cv _ (fa :: a') (fb :: b') ca cb Ha Hb).
  cbn [app]. rewrite concat_app. reflexivity.
Qed.

Lemma api_decrypt_images_app_witness :
  api_decrypt_images cpython toy_cv (Some (lit "KEY"))
    ([(lit "1.png", bm []); (lit "2.png", [0])] ++ [(lit "3.png", bm [101; 101; 102])])
  = Ok (lit "J" ++ lit " ").
Proof.
  apply (api_decrypt_images_app cpython toy_cv (Some (lit "KEY"))); vm_compute; reflexivity.
Defined.


(** X13.  The two alphabet maps undo each other: for every integer [i],
    [index_to_char i] is a one-character string whose [char_to_index] is
    [i mod 29]; in particular the 29 indices 0..28 are fixed points. *)
Theorem char_to_index_of_index_to_char (u : unicode_db) (i : Z) :
  exists sym,
    index_to_char i = inr sym
    /\ char_to_index u sym = inr (i mod 29).
Proof.
  pose proof (Z.mod_pos_bound i 29 ltac:(lia)) as Hr.
  unfold index_to_char. rewrite alphabet_size.
  generalize dependent (i mod 29). intros j Hj.
  apply (in_range 29) in Hj. cbn in Hj.
  repeat (destruct Hj as [<-|Hj]; [eexists; split; reflexivity|]). destruct Hj.
Qed.

(** ** The registries of the chat *)


Lemma dict_set_keys {V} (d : list (pystr * V)) (k x : pystr) (v : V) :
  In x (map fst (dict_set d k v)) -> x = k \/ In x (map fst d).
Proof.
  induction d as [|[k0 v0] d IH]; cbn [dict_set map fst In].
  - intros [<-|[]]. left. reflexivity.
  - destruct (decide (k = k0)) as [->|Hne]; cbn [map fst In].
    + intros [<-|H]; auto.
    + intros [<-|H]; [auto|]. destruct (IH H); auto.
Qed.

Lemma dict_set_nodup {V} (d : list (pystr * V)) (k : pystr) (v : V) :
  NoDup (map fst d) -> NoDup (map fst (dict_set d k v)).
Proof.
  induction d as [|[k0 v0] d IH]; cbn [dict_set map fst].
  - intros _. apply NoDup_singleton.
  - intros H. destruct (decide (k = k0)) as [->|Hne]; cbn [map fst]; [exact H|].
    apply NoDup_cons in H as [Hk0 Hd]. apply NoDup_cons. split; [|auto].
    intros Hin. apply list_elem_of_In, dict_set_keys in Hin as [->|Hin]; [congruence|].
    apply Hk0. apply list_elem_of_In. exact Hin.
Qed.

Lemma dict_get_In {V} (d : list (pystr * V)) (k : pystr) (v : V) :
  NoDup (map fst d) -> (dict_get d k = Some v <-> In (k, v) d).
Proof.
  induction d as [|[k0 v0] d IH]; cbn [dict_get map fst In].
  - intros _. split; [discriminate|tauto].
  - intros H. apply NoDup_cons in H as [Hk0 Hd].
    destruct (decide (k = k0)) as [->|Hne].
    + split; [intros [= <-]; left; reflexivity|].
      intros [[= <-]|Hin]; [reflexivity|]. exfalso. apply Hk0.
      apply list_elem_of_In. apply in_map_iff. exists (k0, v). auto.
    + rewrite (IH Hd). split; [auto|]. intros [[= ? ?]|Hin]; [congruence|exact Hin].
Qed.

Lemma dict_pop_get {V} (d : list (pystr * V)) (k k' : pystr) :
  NoDup (map fst d) ->
  dict_get (dict_pop d k) k' = if decide (k' = k) then None else dict_get d k'.
Proof.
  induction d as [|[k0 v0] d IH]; cbn [dict_pop dict_get map fst].
  - intros _. destruct (decide (k' = k)); reflexivity.
  - intros H. apply NoDup_cons in H as [Hk0 Hd].
    destruct (decide (k = k0)) as [->|Hne].
    + destruct (decide (k' = k0)) as [->|Hne']; [|reflexivity].
      destruct (dict_get d k0) as [v|] eqn:Hg; [|reflexivity].
      exfalso. apply Hk0. apply (dict_get_In d k0 v Hd) in Hg.
      apply list_elem_of_In. apply in_map_iff. exists (k0, v). auto.
    + cbn [dict_get]. destruct (decide (k' = k0)) as [->|Hne'].
      * destruct (decide (k0 = k)); [congruence|reflexivity].
      * apply IH. exact Hd.
Qed.

Lemma dict_pop_nodup {V} (d : list (pystr * V)) (k : pystr) :
  NoDup (map fst d) -> NoDup (map fst (dict_pop d k)).
Proof.
  induction d as [|[k0 v0] d IH]; cbn [dict_pop map fst]; [auto|].
  intros H. apply NoDup_cons in H as [Hk0 Hd].
  destruct (decide (k = k0)); [exact Hd|]. cbn [map fst]. apply NoDup_cons. split; [|auto].
  intros Hin. apply Hk0. apply list_elem_of_In in Hin. apply list_elem_of_In.
  apply in_map_iff in Hin as ([k1 v1] & Hk1 & Hin). cbn [fst] in Hk1. subst k1.
  clear -Hin. induction d as [|[k2 v2] d IH]; cbn [dict_pop] in Hin; [destruct Hin|].
  destruct (decide (k = k2)).
  - right. apply in_map_iff. exists (k0, v1). auto.
  - destruct Hin as [[= -> ->]|Hin]; [left; reflexivity|right; apply IH; exact Hin].
Qed.

Lemma prune_history_spec (msgs : list message) :
  exists dropped,
    msgs = dropped ++ prune_history msgs
    /\ (length (prune_history msgs) <= MAX_HISTORY)%nat
    /\ length dropped = (length msgs - MAX_HISTORY)%nat.
Proof.
  unfold prune_history. destruct (Nat.ltb_spec MAX_HISTORY (length msgs)) as [Hlt|Hge].
  - exists (firstn (length msgs - MAX_HISTORY) msgs).
    split; [symmetry; apply firstn_skipn|]. rewrite length_skipn, length_firstn. lia.
  - exists []. split; [reflexivity|]. cbn [length]. lia.
Qed.

Lemma online_listed (now : Z) (users : list (pystr * user_info)) (uid name : pystr) :
  In (uid, name) (get_online_users now users)
  <-> exists info, In (uid, info) users /\ name = info_username info
                   /\ now - 25000 <= default 0 (info_last_seen info).
Proof.
  unfold get_online_users. rewrite in_map_iff. split.
  - intros ([uid' info] & [= <- <-] & Hin). apply filter_In in Hin as [Hin Hc].
    cbn [snd] in Hc. apply Z.leb_le in Hc. eauto.
  - intros (info & Hin & -> & Hc). exists (uid, info). split; [reflexivity|].
    apply filter_In. split; [exact Hin|]. cbn [snd]. apply Z.leb_le. exact Hc.
Qed.

Lemma snoc_last {A} (l dropped kept : list A) (x : A) :
  l ++ [x] = dropped ++ kept -> kept <> [] -> exists front, kept = front ++ [x].
Proof.
  intros H Hne. destruct kept as [|y kept'] using rev_ind; [congruence|].
  rewrite app_assoc in H. apply app_inj_tail in H as [_ ->]. eauto.
Qed.

(** X14.  A message that is accepted ([api_send_message] or
    [api_send_image]: both are [send]) carries the trimmed, non-empty
    content and the clock reading; it becomes the last entry of the
    history, which keeps at most 200 entries by dropping the oldest ones
    only; the presence list is not touched.  A later poll returns the
    message exactly when its [since] is below the message's clock
    reading. *)
Theorem send_then_poll (u : unicode_db) (py_int : pystr -> option Z) (kind : pystr)
    (user_id username content : option pystr) (uuid iso : pystr) (now : Z)
    (c c' : chat) (msg : message) :
  send u kind user_id username content uuid iso now c = (Done msg, c') ->
  msg = Message uuid (default [] user_id) (clean_username u username) kind
                (str_strip u (default [] content)) iso now
  /\ msg_content msg <> [] /\ msg_userId msg <> []
  /\ (exists dropped front,
        messages c ++ [msg] = dropped ++ messages c'
        /\ messages c' = front ++ [msg]
        /\ length dropped = (length (messages c) + 1 - MAX_HISTORY)%nat)
  /\ (length (messages c') <= MAX_HISTORY)%nat
  /\ online_users c' = online_users c
  /\ forall since_arg t,
       let since := match py_int (default (lit "0") since_arg) with
                    | Some n => n
                    | None => 0
                    end in
       exists new_msgs,
         api_messages py_int since_arg t c' = Done (new_msgs, t)
         /\ (In msg new_msgs <-> since < now).
Proof.
  unfold send.
  destruct (truthy user_id) eqn:Huid; cbn [negb orb]; [|discriminate].
  destruct (str_strip u (default [] content)) as [|c0 content'] eqn:Hc; cbn [is_empty_str];
    [discriminate|].
  intros [= <- <-]. unfold make_message. cbn [messages online_users msg_content msg_userId].
  split; [reflexivity|]. split; [discriminate|].
  split; [destruct user_id as [[|? ?]|]; cbn in *; congruence|].
  set (msg := Message uuid (default [] user_id) (clean_username u username) kind
                (c0 :: content') iso now).
  destruct (prune_history_spec (messages c ++ [msg])) as (dropped & Hd & Hl & Hdl).
  rewrite length_app in Hdl. cbn [length] in Hdl.
  assert (Hfront : exists front, prune_history (messages c ++ [msg]) = front ++ [msg]).
  { apply (snoc_last (messages c) dropped); [exact Hd|].
    intros Hnil. rewrite Hnil, app_nil_r in Hd. rewrite <- Hd, length_app in Hdl.
    cbn [length] in Hdl. unfold MAX_HISTORY in Hdl. lia. }
  destruct Hfront as [front Hfront].
  split; [exists dropped, front; auto|]. split; [exact Hl|]. split; [reflexivity|].
  intros since_arg t. cbn zeta. unfold api_messages. cbn [messages].
  set (since := match py_int (default (lit "0") since_arg) with Some n => n | None => 0 end).
  eexists. split; [reflexivity|]. rewrite filter_In. rewrite Hfront, in_app_iff.
  cbn [In msg_tsMs msg]. rewrite Z.ltb_lt. intuition.
Qed.

Lemma send_then_poll_witness :
  exists msg c',
    api_send_message cpython (Some (lit "u1")) None (Some (lit " hi ")) (lit "id-1") (lit "t") 5000
      (Chat [] []) = (Done msg, c')
    /\ msg_content msg = lit "hi"
    /\ msg_username msg = ANONYMOUS
    /\ messages c' = [msg].
Proof.
  exists (Message (lit "id-1") (lit "u1") ANONYMOUS (lit "text") (lit "hi") (lit "t") 5000),
         (Chat [Message (lit "id-1") (lit "u1") ANONYMOUS (lit "text") (lit "hi") (lit "t") 5000] []).
  assert (H : api_send_message cpython (Some (lit "u1")) None (Some (lit " hi ")) (lit "id-1")
                (lit "t") 5000 (Chat [] [])
              = (Done (Message (lit "id-1") (lit "u1") ANONYMOUS (lit "text") (lit "hi")
                         (lit "t") 5000),
                 Chat [Message (lit "id-1") (lit "u1") ANONYMOUS (lit "text") (lit "hi")
                         (lit "t") 5000] [])) by reflexivity.
  split; [exact H|].
  destruct (send_then_poll cpython (fun _ => None) (lit "text") _ _ _ _ _ _ _ _ _ H)
    as (Hm & _ & _ & _ & _ & _ & _).
  repeat split.
Defined.

(** A request that is refused changes neither registry. *)
Lemma refused_unchanged (u : unicode_db) (kind : pystr)
    (user_id username content : option pystr) (uuid iso : pystr) (now : Z) (c c' : chat)
    (status : Z) (e : chat_error) :
  send u kind user_id username content uuid iso now c = (Refused status e, c') ->
  c' = c /\ status = 400 /\ e = BadPayload
  /\ (truthy user_id = false \/ str_strip u (default [] content) = []).
Proof.
  unfold send. destruct (truthy user_id); cbn [negb orb].
  - destruct (str_strip u (default [] content)); cbn [is_empty_str]; [|discriminate].
    intros [= <- <- <-]. auto.
  - intros [= <- <- <-]. auto.
Qed.




(** X16.  Logging out removes the user's record and nothing else: the
    user is in no later presence list, every other record and the history
    are as before; an unknown or missing user id changes nothing. *)
Theorem logout_removes_user (user_id : option pystr) (c : chat) :
  NoDup (map fst (online_users c)) ->
  let uid := default [] user_id in
  exists c',
    api_logout user_id c = (Done tt, c')
    /\ messages c' = messages c
    /\ NoDup (map fst (online_users c'))
    /\ (truthy user_id = true -> dict_get (online_users c') uid = None)
    /\ (forall uid', uid' <> uid \/ truthy user_id = false ->
          dict_get (online_users c') uid' = dict_get (online_users c) uid')
    /\ (truthy user_id = true ->
        forall now name, ~ In (uid, name) (get_online_users now (online_users c'))).
Proof.
  intros Hnd uid. unfold api_logout. fold uid.
  destruct (truthy user_id) eqn:Huid; cbn [andb].
  - destruct (bool_decide (is_Some (dict_get (online_users c) uid))) eqn:Hb.
    + eexists. split; [reflexivity|]. cbn [messages online_users].
      pose proof (dict_pop_nodup (online_users c) uid Hnd) as Hnd'.
      assert (Hg : dict_get (dict_pop (online_users c) uid) uid = None).
      { rewrite (dict_pop_get _ _ _ Hnd). destruct (decide (uid = uid)); [reflexivity|congruence]. }
      split; [reflexivity|]. split; [exact Hnd'|]. split; [auto|]. split.
      * intros uid' [Hne|Hf]; [|discriminate].
        rewrite (dict_pop_get _ _ _ Hnd). destruct (decide (uid' = uid)); [congruence|reflexivity].
      * intros _ now name Hin. apply online_listed in Hin as (info & Hin & _).
        apply (dict_get_In _ _ _ Hnd') in Hin. congruence.
    + apply bool_decide_eq_false in Hb.
      assert (Hg : dict_get (online_users c) uid = None).
      { destruct (dict_get (online_users c) uid) eqn:Hg; [|reflexivity].
        exfalso. apply Hb. eauto. }
      exists c. split; [reflexivity|]. split; [reflexivity|]. split; [exact Hnd|].
      split; [auto|]. split; [auto|].
      intros _ now name Hin. apply online_listed in Hin as (info & Hin & _).
      apply (dict_get_In _ _ _ Hnd) in Hin. congruence.
  - exists c. split; [reflexivity|]. split; [reflexivity|]. split; [exact Hnd|].
    split; [discriminate|]. split; [auto|discriminate].
Qed.

Lemma logout_removes_user_witness :
  exists c',
    api_logout (Some (lit "u1"))
      (Chat [] [(lit "u1", UserInfo (lit "Ann") (Some 1000) None);
                (lit "u2", UserInfo (lit "Bob") (Some 1000) None)]) = (Done tt, c')
    /\ dict_get (online_users c') (lit "u1") = None
    /\ dict_get (online_users c') (lit "u2") = Some (UserInfo (lit "Bob") (Some 1000) None).
Proof.
  destruct (logout_removes_user (Some (lit "u1"))
              (Chat [] [(lit "u1", UserInfo (lit "Ann") (Some 1000) None);
                        (lit "u2", UserInfo (lit "Bob") (Some 1000) None)]))
    as (c' & H & _ & _ & Hg & Ho & _).
  - apply (bool_decide_unpack _). vm_compute. exact I.
  - exists c'. split; [exact H|]. split; [apply Hg; reflexivity|].
    rewrite Ho; [reflexivity|left; discriminate].
Defined.

(** ** The key allocator *)







(** The allocator on the sample registry: the only key directory is held
    by an active user, so a key is minted. *)
Example assign_key_mints :
  fst (api_assign_key cpython (fun n => n) (Some (lit "u2")) (Some (lit "Bob")) 20000
         (Fs None {[lit "KEY"]} ∅ ∅)
         (Chat [] [(lit "u1", UserInfo (lit "Ann") (Some 19000) (Some (lit "KEY")))]))
  = Done (lit "ABCDEFGH", false).
Proof. vm_compute. reflexivity. Qed.

(** ** Key points *)

Lemma filter_features_spec (threshold : Q) (keypoints : list keypoint)
    (descriptors : list descriptor) :
  forall i,
    (i + length keypoints <= length descriptors)%nat ->
    exists ds,
      filter_features threshold i keypoints descriptors
      = inr (List.filter (fun kp => negb (Qltb (kp_size kp) threshold)) keypoints, ds)
      /\ length ds
         = length (List.filter (fun kp => negb (Qltb (kp_size kp) threshold)) keypoints).
Proof.
  induction keypoints as [|kp rest IH]; intros i Hi; cbn [filter_features List.filter].
  - exists []. split; reflexivity.
  - cbn [length] in Hi. destruct (negb (Qltb (kp_size kp) threshold)).
    + destruct (nth_error descriptors i) as [d|] eqn:Hd.
      * destruct (IH (S i) ltac:(lia)) as (ds & -> & Hl).
        exists (d :: ds). split; [reflexivity|]. cbn [length]. rewrite Hl. reflexivity.
      * apply nth_error_None in Hd. lia.
    + apply IH. lia.
Qed.

(** X18.  [extract_sift_features], when the detector returns one
    descriptor row per key point: the key points returned are exactly the
    detected ones whose size is at least the threshold, in the order of
    detection; the descriptors are [None] when none is kept and have one
    row per kept key point otherwise.  An unreadable image gives no key
    point and no descriptor; nothing is raised. *)
Theorem extract_sift_features_filters (cv : cv2_api) (content : bytes) (threshold : Q) :
  (forall img, length (default [] (snd (sift_detectAndCompute cv img)))
               = length (fst (sift_detectAndCompute cv img))
               \/ snd (sift_detectAndCompute cv img) = None) ->
  exists kps descs,
    extract_sift_features cv content threshold = inr (kps, descs)
    /\ Forall (fun kp => (threshold <= kp_size kp)%Q) kps
    /\ (descs = None <-> kps = [])
    /\ (forall ds, descs = Some ds -> length ds = length kps)
    /\ match imread cv content with
       | None => kps = []
       | Some img =>
           match sift_detectAndCompute cv (cvtColor_gray cv img) with
           | (keypoints, Some _) =>
               kps = List.filter (fun kp => negb (Qltb (kp_size kp) threshold)) keypoints
           | (_, None) => kps = []
           end
       end.
Proof.
  intros Hdet. unfold extract_sift_features.
  destruct (imread cv content) as [img|].
  2:{ exists [], None. repeat split; try constructor; congruence. }
  specialize (Hdet (cvtColor_gray cv img)).
  destruct (sift_detectAndCompute cv (cvtColor_gray cv img)) as [keypoints [ds|]].
  2:{ exists [], None. repeat split; try constructor; congruence. }
  cbn [fst snd default from_option id] in Hdet. destruct Hdet as [Hdet|Hdet]; [|discriminate].
  destruct (filter_features_spec threshold keypoints ds 0 ltac:(lia)) as (kept & -> & Hl).
  set (kps := List.filter (fun kp => negb (Qltb (kp_size kp) threshold)) keypoints) in *.
  exists kps, (match kept with [] => None | _ => Some kept end).
  split; [reflexivity|]. split; [|split; [|split; [|reflexivity]]].
  - apply List.Forall_forall. intros kp Hkp. apply filter_In in Hkp as [_ Hs].
    apply negb_true_iff in Hs. destruct (Qltb_reflect (kp_size kp) threshold) as [|Hn];
      [discriminate|]. apply Qnot_lt_le. exact Hn.
  - destruct kept as [|d kept']; destruct kps as [|k kps']; cbn [length] in Hl;
      try discriminate; split; congruence.
  - intros ds' Hds. destruct kept; [discriminate|]. injection Hds as <-. exact Hl.
Qed.

Lemma extract_sift_features_filters_witness :
  exists kps descs,
    extract_sift_features toy_cv (bm [3; 9; 0; 12]) (inject_Z 6) = inr (kps, descs)
    /\ map kp_size kps = [inject_Z 9; inject_Z 12]
    /\ Forall (fun kp => (inject_Z 6 <= kp_size kp)%Q) kps.
Proof.
  destruct (extract_sift_features_filters toy_cv (bm [3; 9; 0; 12]) (inject_Z 6))
    as (kps & descs & H & Hf & _ & _ & Hk).
  - intros img. cbn [toy_cv sift_detectAndCompute]. unfold toy_sift.
    destruct (map _ _) as [|k l]; [right; reflexivity|left].
    cbn [snd fst default from_option id]. apply length_map.
  - exists kps, descs. split; [exact H|]. split; [|exact Hf].
    vm_compute in Hk. rewrite Hk. reflexivity.
Defined.




(** ** A corpus of one image *)

(** X20.  Over a corpus that holds a single file, with a name matching
    one of the patterns and readable, with keyed index [i], a fresh build
    returns the mapping whose bucket [i] lists exactly that name and whose
    28 other buckets are empty. *)
Theorem single_image_corpus (u : unicode_db) (cv : cv2_api) (key : pystr) (s s' : fs)
    (groups : gmap pystr (list pystr)) (name : pystr) (content : bytes) (i : Z) :
  raw_img s = Some {[name := content]} ->
  has_image_ext u name = true ->
  indexed_at cv key content i ->
  initialize_key_mapping u cv key s = (inr (groups, true), s') ->
  bucket groups i = [name]
  /\ forall j, 0 <= j < 29 -> j <> i -> bucket groups j = [].
Proof.
  intros Hraw Hext Hidx H.
  destruct (fresh_build_unfold u cv key s s' groups H) as (dir & s2 & Hraw' & _ & Hloop & _).
  rewrite Hraw in Hraw'. injection Hraw' as <-.
  assert (Hi : 0 <= i < 29).
  { destruct Hidx as (c & bs & _ & Hc). apply (compute_char_index_range _ _ _ Hc). }
  assert (Hmem : forall j n, 0 <= j < 29 -> (In n (bucket groups j) <-> n = name /\ j = i)).
  { intros j n Hj. rewrite (index_images_members cv key _ _ _ _ _ _ Hloop j n Hj).
    rewrite (bucket_empty_groups j Hj). split.
    - intros [[]|(c0 & Hin & (c & bs & Hfp & Hc))].
      apply image_files_of_In in Hin as [Hd _].
      apply lookup_singleton_Some in Hd as [<- <-].
      destruct Hidx as (c' & bs' & Hfp' & Hc'). rewrite Hfp in Hfp'. injection Hfp' as <- <-.
      split; [reflexivity|congruence].
    - intros [-> ->]. right. exists content. split; [|exact Hidx].
      apply image_files_of_In. split; [apply lookup_singleton_eq|exact Hext]. }
  assert (Hnd : forall j, 0 <= j < 29 -> NoDup (bucket groups j)).
  { refine (index_images_nodup cv key _ _ _ _ _ _ (image_files_of_nodup u _) _ Hloop).
    intros j Hj. rewrite (bucket_empty_groups j Hj). split; [constructor|intros n []]. }
  split.
  - specialize (Hnd i Hi). pose proof (Hmem i) as Hm.
    destruct (bucket groups i) as [|n l].
    + exfalso. apply (proj2 (Hm name Hi)). auto.
    + assert (n = name) by (apply (Hm n Hi); left; reflexivity). subst n.
      destruct l as [|n' l']; [reflexivity|]. exfalso.
      assert (n' = name) by (apply (Hm n' Hi); right; left; reflexivity). subst n'.
      apply NoDup_cons in Hnd as [Hnot _]. apply Hnot. left.
  - intros j Hj Hne. pose proof (Hmem j) as Hm.
    destruct (bucket groups j) as [|n l]; [reflexivity|].
    exfalso. apply Hne. apply (Hm n Hj). left. reflexivity.
Qed.

Lemma single_image_corpus_witness :
  exists groups s',
    initialize_key_mapping cpython toy_cv (lit "KEY")
      (Fs (Some {[lit "only.png" := bm [101; 101; 102]]}) ∅ ∅ ∅) = (inr (groups, true), s')
    /\ bucket groups 26 = [lit "only.png"]
    /\ bucket groups 9 = [].
Proof.
  destruct (initialize_key_mapping_fresh_ok cpython toy_cv (lit "KEY")
              (Fs (Some {[lit "only.png" := bm [101; 101; 102]]}) ∅ ∅ ∅)
              {[lit "only.png" := bm [101; 101; 102]]})
    as (groups & s' & H); [reflexivity|reflexivity|reflexivity|].
  exists groups, s'. split; [exact H|].
  destruct (single_image_corpus cpython toy_cv (lit "KEY")
              (Fs (Some {[lit "only.png" := bm [101; 101; 102]]}) ∅ ∅ ∅)
              s' groups (lit "only.png")
              (bm [101; 101; 102]) 26 eq_refl eq_refl) as [Hb Ho].
  - exists 48, (lit "0000100000000000000000000000000"). split; vm_compute; reflexivity.
  - exact H.
  - split; [exact Hb|]. apply Ho; lia.
Defined.

(** ** The registries under all handlers *)

(** X21.  Every chat handler keeps the registries well-formed: at most
    one record per user id and at most 200 messages in the history,
    whatever the request and whether or not it is accepted.  (Polling
    changes nothing at all.) *)
Theorem handlers_keep_registries (u : unicode_db) (c : chat) :
  chat_ok c ->
  (forall kind user_id username content uuid iso now,
     chat_ok (snd (send u kind user_id username content uuid iso now c)))
  /\ (forall user_id username now_seen now_list,
        chat_ok (snd (heartbeat u user_id username now_seen now_list c)))
  /\ (forall rand user_id username now s,
        chat_ok (snd (api_assign_key u rand user_id username now s c)))
  /\ (forall user_id, chat_ok (snd (api_logout user_id c))).
Proof.
  intros [Hnd Hlen]. split; [|split; [|split]].
  - intros. unfold send.
    destruct (negb (truthy user_id) || is_empty_str (str_strip u (default [] content)));
      cbn [snd]; [split; assumption|].
    split; [exact Hnd|]. cbn [messages].
    destruct (prune_history_spec (messages c ++
                [make_message uuid iso now (default [] user_id) (clean_username u username)
                   kind (str_strip u (default [] content))])) as (_ & _ & Hl & _).
    exact Hl.
  - intros. unfold heartbeat. destruct (negb (truthy user_id)); cbn [snd]; [split; assumption|].
    split; [apply dict_set_nodup; exact Hnd|exact Hlen].
  - intros. unfold api_assign_key.
    destruct (negb (truthy user_id)); cbn [snd]; [split; assumption|].
    match goal with
    | |- context [dict_set (online_users c) ?k ?v] =>
        pose proof (dict_set_nodup (online_users c) k v Hnd) as Hnd1;
        set (users := dict_set (online_users c) k v) in *
    end.
    repeat match goal with
           | |- context [if ?b then _ else _] => destruct b
           | |- context [match ?x with _ => _ end] => destruct x
           end; cbn [snd]; split; cbn [online_users messages];
      try exact Hlen; try exact Hnd1; apply dict_set_nodup; exact Hnd1.
  - intros. unfold api_logout.
    destruct (truthy user_id && _); cbn [snd]; [|split; assumption].
    split; [apply dict_pop_nodup; exact Hnd|exact Hlen].
Qed.

Lemma handlers_keep_registries_witness :
  chat_ok (snd (api_send_message cpython (Some (lit "u1")) None (Some (lit "hi")) (lit "id")
                  (lit "t") 7 (Chat [] []))).
Proof.
  destruct (handlers_keep_registries cpython (Chat [] [])) as (Hs & _).
  - split; [constructor|cbn; unfold MAX_HISTORY; lia].
  - apply Hs.
Defined.

(** ** The batch run *)













Example process_images_sample :
  process_images cpython toy_cv sample_workdir (inject_Z 6)
  = {| input_dir := Some sample_corpus;
       output_dir := {[lit "0000.jpg"; lit "0001.jpg"; lit "0003.jpg"; lit "0004.jpg"]};
       rename_dir := {[lit "0000.jpg" := bm []; lit "0001.jpg" := bm [100];
                       lit "0002.jpg" := [1; 2]; lit "0003.jpg" := bm [0; 0; 3];
                       lit "0004.jpg" := bm [101; 101; 102]]};
       csv_file := Some [(lit "0000.jpg", lit "00000000000000000000000000000000");
                         (lit "0001.jpg", lit "--000000000000000000000000000000");
                         (lit "0003.jpg", lit "00000000000000000000000000000000");
                         (lit "0004.jpg", lit "00000100000000000000000000000000")] |}.
Proof. vm_compute. reflexivity. Qed.
